(** * The vsync I/O engine of fio (engines/sync.c)

    A shallow embedding of the request-batching engine ("vsync") of
    engines/sync.c and the proofs of its specification.

    Data model.  The C code is read on an LP64 target: [unsigned int] is
    32 bits, [unsigned long], [unsigned long long] and [size_t] are 64
    bits, [int] is 32 bits signed and [ssize_t] is 64 bits signed.  Every
    integer is a [Z] and every conversion or wrap-around of the C code is
    written out with the functions of [Module CInt].  Where a statement
    asks for a length or a byte count below 2^32, that is the range of
    the [unsigned int] counters of the code.  [fio_vsyncio_end] copies
    the [ssize_t] byte count of the transfer into such a counter; what
    that does to a count of 2^32 or more is shown on two reads of 3 GiB
    in the section on short transfers.

    The requests ([struct io_u]) belong to the caller; the engine only
    keeps pointers to them.  The embedding therefore has a store of
    [io_u] objects addressed by pointers ([gmap ptr io_u]) and the
    engine's arrays hold pointers into it. *)

From Stdlib Require Import ZArith Lia List String.
From stdpp Require Import base option list gmap.

Local Open Scope Z_scope.

(** ** Machine integers *)

Module CInt.

Definition UINT_MOD : Z := 2 ^ 32.
Definition ULONG_MOD : Z := 2 ^ 64.

(** conversion to [unsigned int] *)
Definition to_uint (z : Z) : Z := z mod UINT_MOD.
(** conversion to [unsigned long] / [unsigned long long] / [size_t] *)
Definition to_ulong (z : Z) : Z := z mod ULONG_MOD.
(** conversion to [int] (two's complement) *)
Definition to_int (z : Z) : Z := (z + 2 ^ 31) mod UINT_MOD - 2 ^ 31.
(** conversion to [ssize_t] / [long] (two's complement) *)
Definition to_ssize (z : Z) : Z := (z + 2 ^ 63) mod ULONG_MOD - 2 ^ 63.

Definition is_uint (z : Z) : Prop := 0 <= z < UINT_MOD.
Definition is_ulong (z : Z) : Prop := 0 <= z < ULONG_MOD.

End CInt.

Import CInt.

(** ** Data *)

(** Addresses of caller-owned objects; [NULL] is address 0. *)
Abbreviation ptr := N.
Definition NULL : ptr := 0%N.

(** [enum fio_ddir]: the three directions the engine distinguishes.
    [DDIR_READ] is the enumerator of value 0. *)
Inductive fio_ddir : Set := DDIR_READ | DDIR_WRITE | DDIR_SYNC.

Definition ddir_eqb (a b : fio_ddir) : bool :=
  match a, b with
  | DDIR_READ, DDIR_READ | DDIR_WRITE, DDIR_WRITE | DDIR_SYNC, DDIR_SYNC => true
  | _, _ => false
  end.

(** The values [fio_vsyncio_queue] returns. *)
Inductive fio_q : Set := FIO_Q_COMPLETED | FIO_Q_QUEUED | FIO_Q_BUSY.

(** [struct io_u], the fields the engine reads or writes.
    [offset] is [unsigned long long], [xfer_buflen] is [unsigned long],
    [resid] and [error] are [unsigned int]. *)
Record io_u : Set := Io_u {
  ddir : fio_ddir;
  file : ptr;
  offset : Z;
  xfer_buf : ptr;
  xfer_buflen : Z;
  resid : Z;
  error : Z
}.

Definition set_resid (u : io_u) (r : Z) : io_u :=
  {| ddir := ddir u; file := file u; offset := offset u;
     xfer_buf := xfer_buf u; xfer_buflen := xfer_buflen u;
     resid := r; error := error u |}.

Definition set_error (u : io_u) (e : Z) : io_u :=
  {| ddir := ddir u; file := file u; offset := offset u;
     xfer_buf := xfer_buf u; xfer_buflen := xfer_buflen u;
     resid := resid u; error := e |}.

(** [struct iovec] *)
Record iovec : Set := Iovec { iov_base : ptr; iov_len : Z }.

(** [struct syncio_data].  The two arrays are allocated once with
    [iodepth] slots each. *)
Record syncio_data : Set := Sd {
  iovecs : list iovec;
  io_us : list ptr;
  queued : Z;
  queued_bytes : Z;
  last_offset : Z;
  last_file : ptr;
  last_ddir : fio_ddir
}.

(** System calls the engine issues, in the order issued.  A file is
    named by the address of its [struct fio_file]. *)
Inductive syscall : Set :=
| SysLseek (f : ptr) (off : Z)
| SysReadv (f : ptr) (iov : list iovec)
| SysWritev (f : ptr) (iov : list iovec)
| SysFsync (f : ptr).

(** What the operating system answers to one call: the return value
    and the value [errno] takes when that return value is -1. *)
Record sysres : Set := Sysres { sr_ret : Z; sr_errno : Z }.

(** The thread and its surroundings: [td->o.iodepth], the engine data
    [td->io_ops->data], the store of [io_u] objects, [errno], what was
    reported through [td_verror], and the system calls issued. *)
Record machine : Type := Machine {
  iodepth : Z;
  sd : syncio_data;
  heap : gmap ptr io_u;
  errno : Z;
  verrors : list (Z * string);
  trace : list syscall
}.

Definition with_sd (m : machine) (s : syncio_data) : machine :=
  {| iodepth := iodepth m; sd := s; heap := heap m; errno := errno m;
     verrors := verrors m; trace := trace m |}.

Definition with_heap (m : machine) (h : gmap ptr io_u) : machine :=
  {| iodepth := iodepth m; sd := sd m; heap := h; errno := errno m;
     verrors := verrors m; trace := trace m |}.

(** Modelled from the spec: [td_verror] is a macro of fio.h, which is not
    part of the sources at hand.  The spec describes it as the error
    reporting sink that "receives (error-code, operation-label)"; the
    sink is the list [verrors], most recent report last. *)
Definition td_verror (m : machine) (err : Z) (label : string) : machine :=
  {| iodepth := iodepth m; sd := sd m; heap := heap m; errno := errno m;
     verrors := verrors m ++ [(err, label)]; trace := trace m |}.

(** Issuing a system call: it is appended to the trace, and [errno] is
    set when the call fails. *)
Definition do_syscall (m : machine) (c : syscall) (r : sysres) : machine :=
  {| iodepth := iodepth m; sd := sd m; heap := heap m;
     errno := (if sr_ret r =? -1 then sr_errno r else errno m);
     verrors := verrors m; trace := trace m ++ [c] |}.

Definition set_queued (s : syncio_data) (q : Z) : syncio_data :=
  {| iovecs := iovecs s; io_us := io_us s; queued := q;
     queued_bytes := queued_bytes s; last_offset := last_offset s;
     last_file := last_file s; last_ddir := last_ddir s |}.

Definition set_queued_bytes (s : syncio_data) (b : Z) : syncio_data :=
  {| iovecs := iovecs s; io_us := io_us s; queued := queued s;
     queued_bytes := b; last_offset := last_offset s;
     last_file := last_file s; last_ddir := last_ddir s |}.

(** ** The engine *)

Section Engine.

(** [fio_ro_check] is an assertion macro of fio.h, which is not part of
    the sources at hand; what it asserts of the thread and the request
    is a parameter.  When the assertion fails the program aborts. *)
Variable fio_ro_check : machine -> io_u -> bool.

(** [fio_io_end]: completion of one request issued on its own.  [p] is
    the [io_u] pointer; a pointer that addresses no object is a fault
    ([None]). *)
Definition fio_io_end (m : machine) (p : ptr) (ret : Z)
  : option (fio_q * machine) :=
  u ← heap m !! p;
  if negb (ret =? to_int (xfer_buflen u)) then
    if 0 <=? ret then
      let u' :=
        set_error
          (set_resid u (to_uint (to_ulong (xfer_buflen u - ret)))) 0 in
      Some (FIO_Q_COMPLETED, with_heap m (<[p := u']> (heap m)))
    else
      let u' := set_error u (to_uint (errno m)) in
      let m' := with_heap m (<[p := u']> (heap m)) in
      Some (FIO_Q_COMPLETED,
            if error u' =? 0 then m' else td_verror m' (error u') "xfer")
  else
    Some (FIO_Q_COMPLETED,
          if error u =? 0 then m else td_verror m (error u) "xfer").

(** [fio_vsyncio_getevents] *)
Definition fio_vsyncio_getevents (m : machine) (min max : Z)
  : Z * machine :=
  if negb (min =? 0) then
    (to_int (queued (sd m)), with_sd m (set_queued (sd m) 0))
  else (0, m).

(** [fio_vsyncio_event]: [sd->io_us[event]]; an index outside the
    array is a fault. *)
Definition fio_vsyncio_event (m : machine) (event : Z) : option ptr :=
  if event <? 0 then None else io_us (sd m) !! Z.to_nat event.

(** [fio_vsyncio_append]: the mergeability test. *)
Definition fio_vsyncio_append (s : syncio_data) (u : io_u) : bool :=
  match ddir u with
  | DDIR_SYNC => false
  | _ =>
      (offset u =? last_offset s) && (file u =? last_file s)%N
      && ddir_eqb (ddir u) (last_ddir s)
  end.

(** [fio_vsyncio_set_iov]: [p] is the [io_u] pointer and [u] the object
    it points to.  A store outside the arrays is a fault. *)
Definition fio_vsyncio_set_iov (s : syncio_data) (p : ptr) (u : io_u)
    (index : Z) : option syncio_data :=
  if (index <? 0) || (Z.of_nat (length (io_us s)) <=? index)
     || (Z.of_nat (length (iovecs s)) <=? index)
  then None
  else
    let i := Z.to_nat index in
    Some {| io_us := <[i := p]> (io_us s);
            iovecs := <[i := Iovec (xfer_buf u) (xfer_buflen u)]> (iovecs s);
            last_offset := to_ulong (offset u + xfer_buflen u);
            last_file := file u;
            last_ddir := ddir u;
            queued_bytes := to_ulong (queued_bytes s + xfer_buflen u);
            queued := to_uint (queued s + 1) |}.

(** [fio_vsyncio_queue].  [fs] is the answer of the operating system to
    the [fsync] of the sync-barrier path. *)
Definition fio_vsyncio_queue (m : machine) (p : ptr) (fs : sysres)
  : option (fio_q * machine) :=
  u ← heap m !! p;
  if negb (fio_ro_check m u) then None
  else if negb (fio_vsyncio_append (sd m) u) then
    if negb (queued (sd m) =? 0) then Some (FIO_Q_BUSY, m)
    else
      match ddir u with
      | DDIR_SYNC =>
          if (file u =? NULL)%N then None
          else
            fio_io_end (do_syscall m (SysFsync (file u)) fs) p
              (to_int (sr_ret fs))
      | _ =>
          s' ← fio_vsyncio_set_iov
                 (set_queued_bytes (set_queued (sd m) 0) 0) p u 0;
          Some (FIO_Q_QUEUED, with_sd m s')
      end
  else if queued (sd m) =? iodepth m then Some (FIO_Q_BUSY, m)
  else
    s' ← fio_vsyncio_set_iov (sd m) p u (to_int (queued (sd m)));
    Some (FIO_Q_QUEUED, with_sd m s').

(** The [for] loop of [fio_vsyncio_end]: [n] iterations are left, [i]
    is the loop index, [err] the captured [errno], [bytes] the running
    byte count and [h] the store of requests. *)
Fixpoint vsyncio_end_loop (s : syncio_data) (err : Z) (n : nat) (i : Z)
    (bytes : Z) (h : gmap ptr io_u) : option (Z * gmap ptr io_u) :=
  match n with
  | O => Some (bytes, h)
  | S n' =>
      p ← io_us s !! Z.to_nat i;
      u ← h !! p;
      if bytes =? -1 then
        vsyncio_end_loop s err n' (i + 1) bytes
          (<[p := set_error u (to_uint err)]> h)
      else
        let this_io := to_uint bytes in
        let this_io :=
          if xfer_buflen u <? this_io then to_uint (xfer_buflen u)
          else this_io in
        let u' :=
          set_error
            (set_resid u (to_uint (to_ulong (xfer_buflen u - this_io))))
            0 in
        vsyncio_end_loop s err n' (i + 1) (to_ssize (bytes - this_io))
          (<[p := u']> h)
  end.

(** [fio_vsyncio_end] *)
Definition fio_vsyncio_end (m : machine) (bytes : Z)
  : option (Z * machine) :=
  if to_ulong bytes =? queued_bytes (sd m) then Some (0, m)
  else
    let err := errno m in
    '(bytes', h') ←
      vsyncio_end_loop (sd m) err (Z.to_nat (queued (sd m))) 0 bytes
        (heap m);
    let m' := with_heap m h' in
    if bytes' =? -1 then
      Some (to_int (- err), td_verror m' err "xfer vsync")
    else Some (0, m').

(** [fio_vsyncio_commit].  [ls] and [xf] are the answers of the
    operating system to [lseek] and to [readv]/[writev]. *)
Definition fio_vsyncio_commit (m : machine) (ls xf : sysres)
  : option (Z * machine) :=
  if queued (sd m) =? 0 then Some (0, m)
  else
    let f := last_file (sd m) in
    if (f =? NULL)%N then None
    else
      p0 ← io_us (sd m) !! 0%nat;
      u0 ← heap m !! p0;
      let m1 := do_syscall m (SysLseek f (offset u0)) ls in
      if sr_ret ls =? -1 then
        let err := to_int (- errno m1) in
        Some (err, td_verror m1 (errno m1) "lseek")
      else
        let iov := take (Z.to_nat (queued (sd m))) (iovecs (sd m)) in
        let call :=
          match last_ddir (sd m) with
          | DDIR_READ => SysReadv f iov
          | _ => SysWritev f iov
          end in
        fio_vsyncio_end (do_syscall m1 call xf) (sr_ret xf).

(** [fio_vsyncio_init]: the engine data is zeroed, [last_offset] is set
    to all-ones and the two arrays get [iodepth] slots.  The slots come
    from [malloc]; they hold null values here, and the engine reads a
    slot only after it stored to it.  [h] is the store of requests the
    caller owns. *)
Definition fio_vsyncio_init (depth : Z) (h : gmap ptr io_u) : machine :=
  {| iodepth := depth;
     sd := {| iovecs := replicate (Z.to_nat depth) (Iovec NULL 0);
              io_us := replicate (Z.to_nat depth) NULL;
              queued := 0;
              queued_bytes := 0;
              last_offset := to_ulong (-1);
              last_file := NULL;
              last_ddir := DDIR_READ |};
     heap := h;
     errno := 0;
     verrors := [];
     trace := [] |}.

(** *** Runs of the engine *)

(** The calls a thread makes into the engine, with the answers of the
    operating system to the system calls they issue. *)
Inductive op : Set :=
| OpQueue (p : ptr) (fs : sysres)
| OpCommit (ls xf : sysres)
| OpGetevents (min max : Z).

Definition step (m : machine) (o : op) : option machine :=
  match o with
  | OpQueue p fs => snd <$> fio_vsyncio_queue m p fs
  | OpCommit ls xf => snd <$> fio_vsyncio_commit m ls xf
  | OpGetevents min max => Some (snd (fio_vsyncio_getevents m min max))
  end.

Fixpoint run (m : machine) (ops : list op) : option machine :=
  match ops with
  | [] => Some m
  | o :: ops' => m' ← step m o; run m' ops'
  end.

End Engine.

(** ** Vocabulary of the specification *)

(** The queued requests: the first [queued] slots of [io_us]. *)
Definition batch_ptrs (s : syncio_data) : list ptr :=
  take (Z.to_nat (queued s)) (io_us s).

(** [points_to h ps us]: the pointers [ps] address, in order, the
    objects [us] of the store [h]. *)
Definition points_to (h : gmap ptr io_u) (ps : list ptr) (us : list io_u)
  : Prop :=
  Forall2 (fun p u => h !! p = Some u) ps us.

(** [batch m us]: the batch of [m] holds exactly the requests [us], in
    arrival order. *)
Definition batch (m : machine) (us : list io_u) : Prop :=
  queued (sd m) = Z.of_nat (length us)
  /\ points_to (heap m) (batch_ptrs (sd m)) us.

Definition total_len (us : list io_u) : Z :=
  foldr (fun u acc => xfer_buflen u + acc) 0 us.

Definition sum_resid (us : list io_u) : Z :=
  foldr (fun u acc => resid u + acc) 0 us.

(** The distribution of a byte count over request lengths as the
    specification words it: each request in turn receives
    [min (remaining pool) (its length)] bytes and is left with the
    residual [length - received]. *)
Fixpoint distribute (pool : Z) (lens : list Z) : list Z :=
  match lens with
  | [] => []
  | len :: lens' =>
      let received := Z.min pool len in
      (len - received) :: distribute (pool - received) lens'
  end.

Definition sum_list (l : list Z) : Z := foldr Z.add 0 l.

(** A request after short-transfer resolution left it residual [r]. *)
Definition resolved (u : io_u) (r : Z) : io_u :=
  set_error (set_resid u r) 0.

(** Lengths that the 32-bit per-request counters of the code
    ([unsigned int this_io], [unsigned int resid]) represent. *)
Definition fits_uint (us : list io_u) : Prop :=
  Forall (fun u => is_uint (xfer_buflen u)) us.

(** Two objects that describe the same request: they differ at most in
    the completion fields [resid] and [error]. *)
Definition same_request (u v : io_u) : Prop :=
  ddir u = ddir v /\ file u = file v /\ offset u = offset v
  /\ xfer_buf u = xfer_buf v /\ xfer_buflen u = xfer_buflen v.

(** [heap_keeps h h']: the two stores hold the same requests at the same
    addresses, up to the completion fields. *)
Definition heap_keeps (h h' : gmap ptr io_u) : Prop :=
  forall p, option_Forall2 same_request (h !! p) (h' !! p).

(** A request whose byte range [offset, offset + xfer_buflen) lies in
    the 64-bit offset space. *)
Definition io_u_ok (u : io_u) : Prop :=
  0 <= offset u /\ 0 <= xfer_buflen u
  /\ offset u + xfer_buflen u < ULONG_MOD.

Definition heap_ok (h : gmap ptr io_u) : Prop :=
  forall p u, h !! p = Some u -> io_u_ok u.

(** Every request of the store names a file. *)
Definition files_ok (h : gmap ptr io_u) : Prop :=
  forall p u, h !! p = Some u -> file u <> NULL.

(** [contiguous_from f d start us]: the requests [us] all address file
    [f] in direction [d], the first one starts at [start] and each next
    one starts where the previous one ends. *)
Fixpoint contiguous_from (f : ptr) (d : fio_ddir) (start : Z)
    (us : list io_u) : Prop :=
  match us with
  | [] => True
  | u :: us' =>
      file u = f /\ ddir u = d /\ offset u = start
      /\ contiguous_from f d (start + xfer_buflen u) us'
  end.

(** The loop of [fio_vsyncio_end] read over the list of the pointers it
    visits (shown equal to the loop in [vsyncio_end_loop_resolve]). *)
Fixpoint resolve (err : Z) (ps : list ptr) (bytes : Z)
    (h : gmap ptr io_u) : option (Z * gmap ptr io_u) :=
  match ps with
  | [] => Some (bytes, h)
  | p :: ps' =>
      u ← h !! p;
      if bytes =? -1 then
        resolve err ps' bytes (<[p := set_error u (to_uint err)]> h)
      else
        let this_io := to_uint bytes in
        let this_io :=
          if xfer_buflen u <? this_io then to_uint (xfer_buflen u)
          else this_io in
        let u' :=
          set_error
            (set_resid u (to_uint (to_ulong (xfer_buflen u - this_io))))
            0 in
        resolve err ps' (to_ssize (bytes - this_io)) (<[p := u']> h)
  end.

(** Invariants of the engine's runs: the occupancy stays within the
    depth the arrays were allocated for, ... *)
Record depth_inv (depth : Z) (m : machine) : Prop := {
  inv_depth : iodepth m = depth;
  inv_io_us : length (io_us (sd m)) = Z.to_nat depth;
  inv_iovecs : length (iovecs (sd m)) = Z.to_nat depth;
  inv_queued : 0 <= queued (sd m) <= depth;
  inv_queued_uint : is_uint (queued (sd m))
}.

(** ... and the queued requests are one gapless run of one file in one
    direction that ends at [last_offset]. *)
Record batch_inv (m : machine) : Prop := {
  inv_heap : heap_ok (heap m);
  inv_batch :
    exists us start,
      batch m us
      /\ contiguous_from (last_file (sd m)) (last_ddir (sd m)) start us
      /\ (us <> [] -> last_offset (sd m) = start + total_len us)
}.

(** Each request starts where the one before it ends. *)
Definition gapless (us : list io_u) : Prop :=
  forall (i : nat) (u v : io_u),
    us !! i = Some u -> us !! S i = Some v ->
    offset v = offset u + xfer_buflen u.

(** A call that hands the engine a request hands it the address of an
    object of the store [h]. *)
Definition op_ok (h : gmap ptr io_u) (o : op) : Prop :=
  match o with
  | OpQueue p _ => is_Some (h !! p)
  | _ => True
  end.

(** ** The single-request engines ("sync" and "psync") *)

(** [struct fio_file], the two fields the engines read: the descriptor
    and the position at which the last completed transfer ended. *)
Record fio_file : Set := Fio_file { fd : Z; last_completed_pos : Z }.

(** The system calls of the single-request engines, on descriptors. *)
Inductive io_call : Set :=
| IoLseek (d : Z) (off : Z)
| IoRead (d : Z) (buf : ptr) (len : Z)
| IoWrite (d : Z) (buf : ptr) (len : Z)
| IoPread (d : Z) (buf : ptr) (len : Z) (off : Z)
| IoPwrite (d : Z) (buf : ptr) (len : Z) (off : Z)
| IoFsync (d : Z).

(** A thread of a single-request engine: the thread data and request
    store as before, the [fio_file] objects, and the calls issued. *)
Record sthread : Type := Sthread {
  st_td : machine;
  st_files : gmap ptr fio_file;
  st_calls : list io_call
}.

Definition with_errno (m : machine) (e : Z) : machine :=
  {| iodepth := iodepth m; sd := sd m; heap := heap m; errno := e;
     verrors := verrors m; trace := trace m |}.

Definition with_td (s : sthread) (m : machine) : sthread :=
  {| st_td := m; st_files := st_files s; st_calls := st_calls s |}.

(** Issuing a call: it is appended to the calls, and [errno] is set when
    the call fails. *)
Definition issue (s : sthread) (c : io_call) (r : sysres) : sthread :=
  {| st_td := (if sr_ret r =? -1 then with_errno (st_td s) (sr_errno r)
               else st_td s);
     st_files := st_files s;
     st_calls := st_calls s ++ [c] |}.

Section SingleRequest.

Variable fio_ro_check : machine -> io_u -> bool.

(** [fio_syncio_prep].  [ls] is the answer of the operating system to
    the [lseek], should it be issued. *)
Definition fio_syncio_prep (s : sthread) (p : ptr) (ls : sysres)
  : option (Z * sthread) :=
  u ← heap (st_td s) !! p;
  match ddir u with
  | DDIR_SYNC => Some (0, s)
  | _ =>
      f ← st_files s !! file u;
      if offset u =? last_completed_pos f then Some (0, s)
      else
        let s1 := issue s (IoLseek (fd f) (offset u)) ls in
        if sr_ret ls =? -1 then
          Some (1, with_td s1 (td_verror (st_td s1) (errno (st_td s1))
                                 "lseek"))
        else Some (0, s1)
  end.

(** The tail of both queue functions: [ret] receives the return value
    of the call, an [int], and [fio_io_end] resolves the request. *)
Definition single_end (s : sthread) (p : ptr) (c : io_call) (r : sysres)
  : option (fio_q * sthread) :=
  let s1 := issue s c r in
  '(q, m') ← fio_io_end (st_td s1) p (to_int (sr_ret r));
  Some (q, with_td s1 m').

(** [fio_psyncio_queue].  [r] is the answer of the operating system to
    the one call the function issues. *)
Definition fio_psyncio_queue (s : sthread) (p : ptr) (r : sysres)
  : option (fio_q * sthread) :=
  u ← heap (st_td s) !! p;
  if negb (fio_ro_check (st_td s) u) then None
  else
    f ← st_files s !! file u;
    match ddir u with
    | DDIR_READ =>
        single_end s p
          (IoPread (fd f) (xfer_buf u) (xfer_buflen u) (offset u)) r
    | DDIR_WRITE =>
        single_end s p
          (IoPwrite (fd f) (xfer_buf u) (xfer_buflen u) (offset u)) r
    | DDIR_SYNC => single_end s p (IoFsync (fd f)) r
    end.

(** [fio_syncio_queue] *)
Definition fio_syncio_queue (s : sthread) (p : ptr) (r : sysres)
  : option (fio_q * sthread) :=
  u ← heap (st_td s) !! p;
  if negb (fio_ro_check (st_td s) u) then None
  else
    f ← st_files s !! file u;
    match ddir u with
    | DDIR_READ =>
        single_end s p (IoRead (fd f) (xfer_buf u) (xfer_buflen u)) r
    | DDIR_WRITE =>
        single_end s p (IoWrite (fd f) (xfer_buf u) (xfer_buflen u)) r
    | DDIR_SYNC => single_end s p (IoFsync (fd f)) r
    end.

(** *** A caller that submits requests one after the other *)

(** The requests [ps] are handed to [fio_vsyncio_queue] in order; the
    answers are collected. *)
Fixpoint queue_each (m : machine) (ps : list ptr) (fs : sysres)
  : option (list fio_q * machine) :=
  match ps with
  | [] => Some ([], m)
  | p :: ps' =>
      '(q, m1) ← fio_vsyncio_queue fio_ro_check m p fs;
      '(qs, m2) ← queue_each m1 ps' fs;
      Some (q :: qs, m2)
  end.

End SingleRequest.

(** The descriptor the engine builds for a request. *)
Definition iovec_of (u : io_u) : iovec :=
  {| iov_base := xfer_buf u; iov_len := xfer_buflen u |}.

(** The descriptors of the queued requests: the first [queued] slots of
    [iovecs]. *)
Definition batch_iovecs (s : syncio_data) : list iovec :=
  take (Z.to_nat (queued s)) (iovecs s).

(** The vectored call of a commit. *)
Definition vectored_call (s : syncio_data) : syscall :=
  match last_ddir s with
  | DDIR_READ => SysReadv (last_file s) (batch_iovecs s)
  | _ => SysWritev (last_file s) (batch_iovecs s)
  end.

(** The descriptors of the batch describe its requests. *)
Definition iov_inv_holds (m : machine) : Prop :=
  exists us, batch m us /\ batch_iovecs (sd m) = iovec_of <$> us.

(** The call without its offset: what [read] and [write] are to [pread]
    and [pwrite]. *)
Definition forget_offset (c : io_call) : io_call :=
  match c with
  | IoPread d buf len _ => IoRead d buf len
  | IoPwrite d buf len _ => IoWrite d buf len
  | _ => c
  end.

(** ** Example data *)

Definition ex_file : ptr := 64%N.

Definition ex_req (d : fio_ddir) (off len : Z) : io_u :=
  {| ddir := d; file := ex_file; offset := off; xfer_buf := 4096%N;
     xfer_buflen := len; resid := 7; error := 9 |}.

Definition ok_res (r : Z) : sysres := {| sr_ret := r; sr_errno := 0 |}.
Definition fail_res (e : Z) : sysres := {| sr_ret := -1; sr_errno := e |}.

(** Five requests: three adjacent reads of 100, 200 and 50 bytes, a read
    somewhere else, and a read that continues the first three. *)
Definition ex_heap : gmap ptr io_u :=
  <[1%N := ex_req DDIR_READ 0 100]>
    (<[2%N := ex_req DDIR_READ 100 200]>
       (<[3%N := ex_req DDIR_READ 300 50]>
          (<[4%N := ex_req DDIR_READ 1000 10]>
             (<[5%N := ex_req DDIR_READ 350 10]> ∅)))).

Definition ex_queue3 : list op :=
  [OpQueue 1%N (ok_res 0); OpQueue 2%N (ok_res 0); OpQueue 3%N (ok_res 0)].

(** A thread that may read and write. *)
Definition ex_check (m : machine) (u : io_u) : bool := true.

(** The engine with depth 4 after the three adjacent reads were queued. *)
Definition ex_batch3 : machine :=
  {| iodepth := 4;
     sd := {| iovecs := [Iovec 4096%N 100; Iovec 4096%N 200;
                         Iovec 4096%N 50; Iovec NULL 0];
              io_us := [1%N; 2%N; 3%N; NULL];
              queued := 3;
              queued_bytes := 350;
              last_offset := 350;
              last_file := ex_file;
              last_ddir := DDIR_READ |};
     heap := ex_heap;
     errno := 0;
     verrors := [];
     trace := [] |}.

(** The same batch in an engine of depth 3: the batch is full. *)
Definition ex_full3 : machine :=
  {| iodepth := 3;
     sd := {| iovecs := [Iovec 4096%N 100; Iovec 4096%N 200;
                         Iovec 4096%N 50];
              io_us := [1%N; 2%N; 3%N];
              queued := 3;
              queued_bytes := 350;
              last_offset := 350;
              last_file := ex_file;
              last_ddir := DDIR_READ |};
     heap := ex_heap;
     errno := 0;
     verrors := [];
     trace := [] |}.

(** The requests of [ex_heap] and a sync barrier on the same file, with
    an engine of depth 4 that has nothing queued. *)
Definition ex_heap_sync : gmap ptr io_u :=
  <[6%N := ex_req DDIR_SYNC 0 0]> ex_heap.

Definition ex_idle : machine := fio_vsyncio_init 4 ex_heap_sync.

(** The file of the examples: descriptor 3, last transfer ended at
    offset 100. *)
Definition ex_files : gmap ptr fio_file :=
  {[ ex_file := {| fd := 3; last_completed_pos := 100 |} ]}.

Definition ex_sthread : sthread :=
  {| st_td := ex_idle; st_files := ex_files; st_calls := [] |}.

(** Two adjacent reads of 3 GiB each (3221225472 bytes, a length that an
    [unsigned int] holds), and the engine of depth 2 after both were
    queued: 6442450944 bytes are queued. *)
Definition ex_big_heap : gmap ptr io_u :=
  <[1%N := ex_req DDIR_READ 0 3221225472]>
    (<[2%N := ex_req DDIR_READ 3221225472 3221225472]> ∅).

Definition ex_big_queue2 : list op :=
  [OpQueue 1%N (ok_res 0); OpQueue 2%N (ok_res 0)].

Definition ex_big2 : machine :=
  {| iodepth := 2;
     sd := {| iovecs := [Iovec 4096%N 3221225472; Iovec 4096%N 3221225472];
              io_us := [1%N; 2%N];
              queued := 2;
              queued_bytes := 6442450944;
              last_offset := 6442450944;
              last_file := ex_file;
              last_ddir := DDIR_READ |};
     heap := ex_big_heap;
     errno := 0;
     verrors := [];
     trace := [] |}.

(** * Proofs *)

(** ** Machine integers *)

Lemma to_uint_id z : is_uint z -> to_uint z = z.
Proof. intros H. apply Z.mod_small. exact H. Qed.

Lemma to_ulong_id z : is_ulong z -> to_ulong z = z.
Proof. intros H. apply Z.mod_small. exact H. Qed.

Lemma to_int_id z : - 2 ^ 31 <= z < 2 ^ 31 -> to_int z = z.
Proof. intros H. unfold to_int, UINT_MOD. rewrite Z.mod_small; lia. Qed.

Lemma to_ssize_id z : - 2 ^ 63 <= z < 2 ^ 63 -> to_ssize z = z.
Proof. intros H. unfold to_ssize, ULONG_MOD. rewrite Z.mod_small; lia. Qed.

Lemma to_uint_range z : is_uint (to_uint z).
Proof. apply Z.mod_pos_bound. reflexivity. Qed.

Lemma to_ulong_range z : is_ulong (to_ulong z).
Proof. apply Z.mod_pos_bound. reflexivity. Qed.

Lemma to_int_nonneg z : is_uint z -> 0 <= to_int z -> to_int z = z.
Proof.
  unfold is_uint, to_int, UINT_MOD. intros Hz Hi.
  destruct (Z_lt_ge_dec z (2 ^ 31)) as [Hlt | Hge].
  - rewrite Z.mod_small; lia.
  - replace (z + 2 ^ 31) with (z - 2 ^ 31 + 1 * 2 ^ 32) in Hi by lia.
    rewrite Z.mod_add in Hi by lia. rewrite Z.mod_small in Hi; lia.
Qed.

Lemma is_uint_ulong z : is_uint z -> is_ulong z.
Proof. unfold is_uint, is_ulong, UINT_MOD, ULONG_MOD. lia. Qed.

Lemma ddir_eqb_eq a b : ddir_eqb a b = true <-> a = b.
Proof. destruct a, b; simpl; split; congruence. Qed.

(** ** Requests and stores *)

Lemma same_request_refl u : same_request u u.
Proof. repeat split. Qed.

Lemma same_request_trans u v w :
  same_request u v -> same_request v w -> same_request u w.
Proof. unfold same_request. intuition congruence. Qed.

Lemma same_request_set_resid u r : same_request u (set_resid u r).
Proof. repeat split. Qed.

Lemma same_request_set_error u e : same_request u (set_error u e).
Proof. repeat split. Qed.

Lemma same_request_resolved u r : same_request u (resolved u r).
Proof. repeat split. Qed.

Lemma heap_keeps_refl h : heap_keeps h h.
Proof.
  intros p. destruct (h !! p); constructor. apply same_request_refl.
Qed.

Lemma heap_keeps_trans h1 h2 h3 :
  heap_keeps h1 h2 -> heap_keeps h2 h3 -> heap_keeps h1 h3.
Proof.
  intros H12 H23 p. specialize (H12 p). specialize (H23 p).
  destruct H12 as [u v Huv|]; inversion H23; subst; constructor.
  eapply same_request_trans; eassumption.
Qed.

Lemma heap_keeps_insert (h : gmap ptr io_u) p u u' :
  h !! p = Some u -> same_request u u' -> heap_keeps h (<[p := u']> h).
Proof.
  intros Hp Hs q. destruct (decide (p = q)) as [-> | Hne].
  - rewrite lookup_insert_eq, Hp. constructor. exact Hs.
  - rewrite lookup_insert_ne by exact Hne.
    destruct (h !! q); constructor. apply same_request_refl.
Qed.

Lemma heap_keeps_ok h h' : heap_keeps h h' -> heap_ok h -> heap_ok h'.
Proof.
  intros Hk Hok p u' Hp. specialize (Hk p). rewrite Hp in Hk.
  inversion Hk as [u v Hs Hu Hv|]; subst.
  symmetry in Hu. specialize (Hok p u Hu).
  destruct Hs as (_ & _ & Ho & _ & Hl).
  unfold io_u_ok in *. rewrite <- Ho, <- Hl. exact Hok.
Qed.

Lemma heap_keeps_points_to h h' ps us :
  heap_keeps h h' -> points_to h ps us ->
  exists us', points_to h' ps us' /\ Forall2 same_request us us'.
Proof.
  intros Hk Hpt. induction Hpt as [| p u ps us Hp _ IH].
  - exists []. split; constructor.
  - destruct IH as (us' & Hpt' & Hs).
    specialize (Hk p). rewrite Hp in Hk.
    inversion Hk as [u0 u' Hs0 Hu Hv|]; subst.
    exists (u' :: us'). split; constructor; auto.
Qed.

Lemma total_len_same us us' :
  Forall2 same_request us us' -> total_len us = total_len us'.
Proof.
  induction 1 as [| u u' us us' Hs _ IH]; simpl; [reflexivity |].
  destruct Hs as (_ & _ & _ & _ & Hl). rewrite Hl, IH. reflexivity.
Qed.

Lemma contiguous_from_same f d us us' :
  Forall2 same_request us us' ->
  forall start, contiguous_from f d start us -> contiguous_from f d start us'.
Proof.
  induction 1 as [| u u' us us' Hs _ IH]; simpl; [tauto |].
  intros start (Hf & Hd & Ho & Hc).
  destruct Hs as (Hd' & Hf' & Ho' & _ & Hl).
  rewrite <- Hf', <- Hd', <- Ho'. repeat split; try assumption.
  apply IH. rewrite <- Hl. exact Hc.
Qed.

Lemma total_len_app us vs : total_len (us ++ vs) = total_len us + total_len vs.
Proof. induction us as [| u us IH]; simpl; [reflexivity | rewrite IH; lia]. Qed.

Lemma contiguous_from_snoc f d us u :
  forall start,
    contiguous_from f d start us ->
    file u = f -> ddir u = d -> offset u = start + total_len us ->
    contiguous_from f d start (us ++ [u]).
Proof.
  induction us as [| v us IH]; simpl; intros start Hc Hf Hd Ho.
  - repeat split; try assumption. lia.
  - destruct Hc as (Hf' & Hd' & Ho' & Hc). repeat split; try assumption.
    apply IH; try assumption. lia.
Qed.

(** ** The resolution loop *)

Lemma vsyncio_end_loop_resolve s err n :
  forall i bytes h,
    0 <= i -> (Z.to_nat i + n <= length (io_us s))%nat ->
    vsyncio_end_loop s err n i bytes h
    = resolve err (take n (drop (Z.to_nat i) (io_us s))) bytes h.
Proof.
  induction n as [| n IH]; intros i bytes h Hi Hlen; simpl.
  - reflexivity.
  - destruct (lookup_lt_is_Some_2 (io_us s) (Z.to_nat i)) as [p Hp]; [lia |].
    rewrite (drop_S _ _ _ Hp). simpl. rewrite Hp. simpl.
    replace (S (Z.to_nat i)) with (Z.to_nat (i + 1)) by lia.
    destruct (h !! p) as [u |]; simpl; [| reflexivity].
    destruct (bytes =? -1); apply IH; lia.
Qed.

Lemma vsyncio_end_loop_batch m us err bytes :
  batch m us ->
  vsyncio_end_loop (sd m) err (Z.to_nat (queued (sd m))) 0 bytes (heap m)
  = resolve err (batch_ptrs (sd m)) bytes (heap m).
Proof.
  intros [Hq Hpt]. rewrite vsyncio_end_loop_resolve.
  - reflexivity.
  - lia.
  - apply Forall2_length in Hpt. unfold batch_ptrs in Hpt.
    rewrite length_take in Hpt. simpl. lia.
Qed.

Lemma resolve_keeps err ps :
  forall bytes h r h',
    resolve err ps bytes h = Some (r, h') -> heap_keeps h h'.
Proof.
  induction ps as [| p ps IH]; simpl; intros bytes h r h' H.
  - inversion H; subst. apply heap_keeps_refl.
  - destruct (h !! p) as [u |] eqn:Hp; simpl in H; [| discriminate].
    destruct (bytes =? -1).
    + eapply heap_keeps_trans; [| eapply IH; exact H].
      eapply heap_keeps_insert; [exact Hp | apply same_request_set_error].
    + eapply heap_keeps_trans; [| eapply IH; exact H].
      eapply heap_keeps_insert; [exact Hp |].
      repeat split.
Qed.


Lemma Forall_points_to_is_Some h ps us :
  points_to h ps us -> Forall (fun p => is_Some (h !! p)) ps.
Proof. induction 1; constructor; eauto. Qed.

(** One step of the loop body on a byte count and a length that fit the
    32-bit counters. *)
Lemma this_io_min bytes len :
  is_uint bytes -> is_uint len ->
  (if len <? to_uint bytes then to_uint len else to_uint bytes)
  = Z.min bytes len.
Proof.
  intros Hb Hl. rewrite (to_uint_id _ Hb), (to_uint_id _ Hl).
  destruct (Z.ltb_spec len bytes); lia.
Qed.

Lemma distribute_length pool lens : length (distribute pool lens) = length lens.
Proof.
  revert pool. induction lens as [| l lens IH]; simpl; intros pool;
    [reflexivity | rewrite IH; reflexivity].
Qed.

Lemma points_to_insert_notin (h : gmap ptr io_u) ps us p v :
  p ∉ ps -> points_to h ps us -> points_to (<[p := v]> h) ps us.
Proof.
  intros Hnin Hpt. induction Hpt as [| q u ps us Hq _ IH].
  - constructor.
  - constructor.
    + rewrite lookup_insert_ne; [exact Hq |].
      intros ->. apply Hnin. left.
    + apply IH. intros Hin. apply Hnin. right. exact Hin.
Qed.

Lemma points_to_frame (h h' : gmap ptr io_u) ps us :
  (forall p, p ∈ ps -> h' !! p = h !! p) ->
  points_to h ps us -> points_to h' ps us.
Proof.
  intros Hf Hpt. induction Hpt as [| q u ps us Hq _ IH].
  - constructor.
  - constructor.
    + rewrite Hf; [exact Hq | left].
    + apply IH. intros p Hin. apply Hf. right. exact Hin.
Qed.

Lemma total_len_nonneg us : fits_uint us -> 0 <= total_len us.
Proof.
  induction 1 as [| v vs Hv _ IHv]; simpl; [lia | unfold is_uint in Hv; lia].
Qed.

(** A short transfer: the requests are resolved as [distribute] says. *)
Lemma resolve_short err ps :
  forall us bytes h,
    points_to h ps us -> NoDup ps -> fits_uint us -> is_uint bytes ->
    exists h',
      resolve err ps bytes h = Some (Z.max 0 (bytes - total_len us), h')
      /\ points_to h' ps
           (zip_with resolved us (distribute bytes (xfer_buflen <$> us)))
      /\ forall p, p ∉ ps -> h' !! p = h !! p.
Proof.
  induction ps as [| p ps IH]; intros us bytes h Hpt Hnd Hfit Hb.
  - inversion Hpt; subst. exists h. simpl. split; [| split].
    + f_equal. f_equal. unfold is_uint in Hb. lia.
    + constructor.
    + reflexivity.
  - inversion Hpt as [| ? u ? us' Hp Hpt']; subst.
    inversion Hnd as [| ? ? Hnin Hnd']; subst.
    inversion Hfit as [| ? ? Hlen Hfit']; subst.
    simpl. rewrite Hp. simpl.
    assert (Hne : (bytes =? -1) = false).
    { apply Z.eqb_neq. unfold is_uint in Hb. lia. }
    rewrite Hne. rewrite (this_io_min _ _ Hb Hlen).
    unfold is_uint, UINT_MOD in Hb, Hlen.
    set (got := Z.min bytes (xfer_buflen u)).
    assert (Hgot : 0 <= got <= xfer_buflen u /\ got <= bytes)
      by (unfold got; lia).
    rewrite (to_ulong_id (xfer_buflen u - got))
      by (unfold is_ulong, ULONG_MOD; lia).
    rewrite (to_uint_id (xfer_buflen u - got))
      by (unfold is_uint, UINT_MOD; lia).
    rewrite (to_ssize_id (bytes - got)) by lia.
    fold (resolved u (xfer_buflen u - got)).
    destruct (IH us' (bytes - got)
                (<[p := resolved u (xfer_buflen u - got)]> h))
      as (h' & Hr & Hpt'' & Hframe).
    + apply points_to_insert_notin; assumption.
    + exact Hnd'.
    + exact Hfit'.
    + unfold is_uint, UINT_MOD. lia.
    + exists h'. split; [| split].
      * rewrite Hr. f_equal. f_equal.
        pose proof (total_len_nonneg _ Hfit'). lia.
      * constructor; [| exact Hpt''].
        rewrite (Hframe p Hnin). apply lookup_insert_eq.
      * intros q Hq. rewrite Hframe.
        -- apply lookup_insert_ne. intros ->. apply Hq. left.
        -- intros Hin. apply Hq. right. exact Hin.
Qed.

(** ** Facts on [distribute] *)

Lemma sum_list_nonneg l : Forall (fun x => 0 <= x) l -> 0 <= sum_list l.
Proof. induction 1; simpl; lia. Qed.

Lemma total_len_sum us : total_len us = sum_list (xfer_buflen <$> us).
Proof.
  induction us as [| u us IH]; simpl; [reflexivity | rewrite IH; reflexivity].
Qed.

(** Conservation: what is left over adds up to what was not transferred. *)
Lemma distribute_sum lens :
  Forall (fun x => 0 <= x) lens ->
  forall pool, 0 <= pool ->
    sum_list (distribute pool lens)
    = sum_list lens - Z.min pool (sum_list lens).
Proof.
  induction 1 as [| len lens Hlen Hall IH]; simpl; intros pool Hpool.
  - lia.
  - rewrite IH by lia. pose proof (sum_list_nonneg _ Hall). lia.
Qed.




(** ** [fio_vsyncio_end] on a batch *)

Lemma batch_ptrs_length m us :
  batch m us -> length (batch_ptrs (sd m)) = length us.
Proof. intros [_ Hpt]. eapply Forall2_length. exact Hpt. Qed.

Lemma zip_with_resolved_resid us rs :
  length us = length rs -> resid <$> zip_with resolved us rs = rs.
Proof.
  revert rs. induction us as [| u us IH]; intros [| r rs] Hlen;
    simpl in *; try discriminate; [reflexivity |].
  f_equal. apply IH. lia.
Qed.

Lemma sum_resid_sum us : sum_resid us = sum_list (resid <$> us).
Proof.
  induction us as [| u us IH]; simpl; [reflexivity | rewrite IH; reflexivity].
Qed.

Lemma zip_with_resolved_error us rs :
  Forall (fun u => error u = 0) (zip_with resolved us rs).
Proof.
  revert rs. induction us as [| u us IH]; intros [| r rs]; simpl;
    constructor; [reflexivity | apply IH].
Qed.

Lemma fits_uint_nonneg us :
  fits_uint us -> Forall (fun x => 0 <= x) (xfer_buflen <$> us).
Proof.
  induction 1 as [| u us Hu _ IH]; simpl; constructor;
    [unfold is_uint in Hu; lia | exact IH].
Qed.

(** The short-transfer path of [fio_vsyncio_end], for a batch of
    distinct requests and counts that fit the 32-bit counters. *)
Lemma fio_vsyncio_end_short m us bytes :
  batch m us -> NoDup (batch_ptrs (sd m)) -> fits_uint us ->
  is_uint bytes -> bytes <> queued_bytes (sd m) ->
  exists h',
    fio_vsyncio_end m bytes = Some (0, with_heap m h')
    /\ points_to h' (batch_ptrs (sd m))
         (zip_with resolved us (distribute bytes (xfer_buflen <$> us)))
    /\ forall p, p ∉ batch_ptrs (sd m) -> h' !! p = heap m !! p.
Proof.
  intros Hb Hnd Hfit Hbytes Hne.
  destruct (resolve_short (errno m) (batch_ptrs (sd m)) us bytes (heap m))
    as (h' & Hr & Hpt & Hframe); try assumption; [apply Hb |].
  exists h'. split; [| split; assumption].
  unfold fio_vsyncio_end.
  rewrite (to_ulong_id bytes) by (apply is_uint_ulong; exact Hbytes).
  destruct (Z.eqb_spec bytes (queued_bytes (sd m))) as [Heq | _];
    [contradiction |].
  rewrite (vsyncio_end_loop_batch m us) by exact Hb.
  rewrite Hr. simpl.
  destruct (Z.eqb_spec (Z.max 0 (bytes - total_len us)) (-1)) as [Hm | _];
    [lia | reflexivity].
Qed.


(** X22. Byte conservation within the range of the 32-bit counters.
    For every batch [us] of distinct requests whose lengths are below
    2^32, and every byte count [bytes] below 2^32 with
    [0 <= bytes < total_len us], the sum of the lengths, that differs
    from the counter [queued_bytes], after [fio_vsyncio_end] the
    residuals of the queued requests add up to [total_len us - bytes],
    the error field of every queued request is 0 and the engine data is
    unchanged. *)
Theorem short_transfer_conservation :
  forall (m : machine) (us : list io_u) (bytes : Z),
    batch m us -> NoDup (batch_ptrs (sd m)) ->
    fits_uint us -> is_uint bytes ->
    0 <= bytes < total_len us -> bytes <> queued_bytes (sd m) ->
    exists m' us',
      fio_vsyncio_end m bytes = Some (0, m')
      /\ sd m' = sd m
      /\ batch m' us'
      /\ sum_resid us' = total_len us - bytes
      /\ Forall (fun u => error u = 0) us'.
Proof.
  intros m us bytes Hb Hnd Hfit Hbytes Hrange Hne.
  destruct (fio_vsyncio_end_short m us bytes) as (h' & He & Hpt & _);
    try assumption.
  exists (with_heap m h'),
    (zip_with resolved us (distribute bytes (xfer_buflen <$> us))).
  assert (Hlen : length us = length (distribute bytes (xfer_buflen <$> us)))
    by (rewrite distribute_length, length_fmap; reflexivity).
  split; [exact He |]. split; [reflexivity |]. split; [| split].
  - split; [| exact Hpt]. simpl.
    rewrite length_zip_with_l_eq by exact Hlen. apply Hb.
  - rewrite sum_resid_sum, zip_with_resolved_resid by exact Hlen.
    rewrite distribute_sum by (try apply fits_uint_nonneg; tauto).
    rewrite <- total_len_sum. lia.
  - apply zip_with_resolved_error.
Qed.

(** ** Byte counts of 2^32 and more *)

(** The two reads of 3 GiB are queued by a run from the initial state. *)
Lemma ex_run_big2 :
  run ex_check (fio_vsyncio_init 2 ex_big_heap) ex_big_queue2
  = Some ex_big2.
Proof. vm_compute. reflexivity. Qed.

Lemma ex_big2_batch :
  batch ex_big2
    [ex_req DDIR_READ 0 3221225472;
     ex_req DDIR_READ 3221225472 3221225472].
Proof. split; [reflexivity | repeat constructor]. Qed.

(** C1. The distribution rule of short-transfer resolution, request [i]
    receives [min (remaining pool) (its length)] bytes, is what
    [distribute] computes.  [fio_vsyncio_end] departs from it when the
    byte count does not fit [unsigned int this_io]: the statement
    [this_io = bytes] keeps the low 32 bits of the count before the
    minimum is taken.  With the two reads of 3 GiB queued (6442450944
    bytes) and a transfer of 2^32 + 50 = 4294967346 bytes, the code
    gives the first request 50 bytes and the second none, so the
    residuals are 3221225422 and 3221225472, where the rule gives the
    first request all of its 3221225472 bytes and the second the
    remaining 1073741874, residuals 0 and 2147483598. *)
Theorem short_transfer_truncates_count :
  let us := [ex_req DDIR_READ 0 3221225472;
             ex_req DDIR_READ 3221225472 3221225472] in
  run ex_check (fio_vsyncio_init 2 ex_big_heap) ex_big_queue2
  = Some ex_big2
  /\ batch ex_big2 us
  /\ NoDup (batch_ptrs (sd ex_big2))
  /\ 0 <= 4294967346
  /\ 4294967346 <> queued_bytes (sd ex_big2)
  /\ distribute 4294967346 (xfer_buflen <$> us) = [0; 2147483598]
  /\ exists m',
       fio_vsyncio_end ex_big2 4294967346 = Some (0, m')
       /\ batch m'
            [resolved (ex_req DDIR_READ 0 3221225472) 3221225422;
             resolved (ex_req DDIR_READ 3221225472 3221225472)
               3221225472].
Proof.
  split; [exact ex_run_big2 |].
  split; [exact ex_big2_batch |].
  split; [compute_done |].
  split; [lia |].
  split; [simpl; lia |].
  split; [reflexivity |].
  eexists. split; [vm_compute; reflexivity |].
  split; [reflexivity | repeat constructor].
Qed.

(** C10. Byte conservation, the residuals add up to the queued bytes
    minus the transferred bytes, fails on the same input for the same
    reason.  The two reads queue 6442450944 bytes, the sum of their
    lengths and the value of the counter [queued_bytes]; of the
    4294967346 bytes the transfer moved, [fio_vsyncio_end] accounts for
    the 50 that the low 32 bits hold.  The residuals add up to
    6442450894, not to 6442450944 - 4294967346 = 2147483598, while the
    error fields are 0 as the claim says. *)
Theorem short_transfer_loses_bytes :
  let us := [ex_req DDIR_READ 0 3221225472;
             ex_req DDIR_READ 3221225472 3221225472] in
  run ex_check (fio_vsyncio_init 2 ex_big_heap) ex_big_queue2
  = Some ex_big2
  /\ batch ex_big2 us
  /\ total_len us = 6442450944
  /\ queued_bytes (sd ex_big2) = 6442450944
  /\ 0 <= 4294967346 < total_len us
  /\ total_len us - 4294967346 = 2147483598
  /\ exists m' us',
       fio_vsyncio_end ex_big2 4294967346 = Some (0, m')
       /\ batch m' us'
       /\ sum_resid us' = 6442450894
       /\ Forall (fun u => error u = 0) us'.
Proof.
  split; [exact ex_run_big2 |].
  split; [exact ex_big2_batch |].
  split; [reflexivity |].
  split; [reflexivity |].
  split; [simpl; lia |].
  split; [reflexivity |].
  eexists.
  exists [resolved (ex_req DDIR_READ 0 3221225472) 3221225422;
          resolved (ex_req DDIR_READ 3221225472 3221225472) 3221225472].
  split; [vm_compute; reflexivity |].
  split; [split; [reflexivity | repeat constructor] |].
  split; [reflexivity | repeat constructor].
Qed.

(** ** Commit *)




(** C9. When positioning fails ([lseek] returns -1 and sets [errno] to
    [e]), commit of a non-empty batch issues the [lseek] and no other
    system call, reports [e] through [td_verror] and returns the
    negative value [- e]; the engine data (queued requests, descriptors,
    queued count, cumulative bytes, last offset, file and direction) and
    the store of requests (residual and error fields included) are what
    they were before the call. *)
Theorem positioning_failure_keeps_batch :
  forall (m : machine) (ls xf : sysres) (p0 : ptr) (u0 : io_u),
    queued (sd m) <> 0 -> last_file (sd m) <> NULL ->
    io_us (sd m) !! 0%nat = Some p0 -> heap m !! p0 = Some u0 ->
    sr_ret ls = -1 -> 0 < sr_errno ls < 2 ^ 31 ->
    let e := sr_errno ls in
    exists m',
      fio_vsyncio_commit m ls xf = Some (- e, m')
      /\ - e < 0
      /\ trace m' = trace m ++ [SysLseek (last_file (sd m)) (offset u0)]
      /\ verrors m' = verrors m ++ [(e, "lseek"%string)]
      /\ sd m' = sd m
      /\ heap m' = heap m.
Proof.
  intros m ls xf p0 u0 Hq Hf Hp0 Hu0 Hls He e.
  unfold fio_vsyncio_commit.
  destruct (Z.eqb_spec (queued (sd m)) 0) as [| _]; [contradiction |].
  destruct (N.eqb_spec (last_file (sd m)) NULL) as [| _]; [contradiction |].
  rewrite Hp0. simpl. rewrite Hu0. simpl. rewrite Hls. simpl.
  rewrite (to_int_id (- sr_errno ls)) by lia.
  eexists. split; [reflexivity |]. simpl. repeat split. lia.
Qed.

(** ** What the completion paths keep *)

Lemma vsyncio_end_loop_keeps s err n :
  forall i bytes h r h',
    vsyncio_end_loop s err n i bytes h = Some (r, h') -> heap_keeps h h'.
Proof.
  induction n as [| n IH]; simpl; intros i bytes h r h' H.
  - inversion H; subst. apply heap_keeps_refl.
  - destruct (io_us s !! Z.to_nat i) as [p |]; simpl in H; [| discriminate].
    destruct (h !! p) as [u |] eqn:Hp; simpl in H; [| discriminate].
    destruct (bytes =? -1).
    + eapply heap_keeps_trans; [| eapply IH; exact H].
      eapply heap_keeps_insert; [exact Hp | apply same_request_set_error].
    + eapply heap_keeps_trans; [| eapply IH; exact H].
      eapply heap_keeps_insert; [exact Hp |]. repeat split.
Qed.

Lemma fio_vsyncio_end_keeps m bytes r m' :
  fio_vsyncio_end m bytes = Some (r, m') ->
  sd m' = sd m /\ iodepth m' = iodepth m /\ heap_keeps (heap m) (heap m').
Proof.
  unfold fio_vsyncio_end. intros H.
  destruct (to_ulong bytes =? queued_bytes (sd m)).
  - inversion H; subst. repeat split. apply heap_keeps_refl.
  - destruct (vsyncio_end_loop _ _ _ _ _ _) as [[b h'] |] eqn:Hl;
      simpl in H; [| discriminate].
    apply vsyncio_end_loop_keeps in Hl.
    destruct (b =? -1); inversion H; subst; repeat split; exact Hl.
Qed.

Lemma fio_vsyncio_commit_keeps m ls xf r m' :
  fio_vsyncio_commit m ls xf = Some (r, m') ->
  sd m' = sd m /\ iodepth m' = iodepth m /\ heap_keeps (heap m) (heap m').
Proof.
  unfold fio_vsyncio_commit. intros H.
  destruct (queued (sd m) =? 0).
  { inversion H; subst. repeat split. apply heap_keeps_refl. }
  destruct (last_file (sd m) =? NULL)%N; [discriminate |].
  destruct (io_us (sd m) !! 0%nat) as [p0 |]; simpl in H; [| discriminate].
  destruct (heap m !! p0) as [u0 |]; simpl in H; [| discriminate].
  destruct (sr_ret ls =? -1).
  { inversion H; subst. repeat split. apply heap_keeps_refl. }
  apply fio_vsyncio_end_keeps in H. exact H.
Qed.

Lemma fio_io_end_keeps m p ret r m' :
  fio_io_end m p ret = Some (r, m') ->
  sd m' = sd m /\ iodepth m' = iodepth m /\ heap_keeps (heap m) (heap m').
Proof.
  unfold fio_io_end. intros H.
  destruct (heap m !! p) as [u |] eqn:Hp; simpl in H; [| discriminate].
  destruct (negb (ret =? to_int (xfer_buflen u))).
  - destruct (0 <=? ret).
    + inversion H; subst. repeat split. simpl.
      eapply heap_keeps_insert; [exact Hp |]. repeat split.
    + match type of H with context [if ?c then _ else _] => destruct c end;
        inversion H; subst; repeat split; simpl;
        (eapply heap_keeps_insert; [exact Hp | apply same_request_set_error]).
  - destruct (error u =? 0); inversion H; subst; repeat split;
      apply heap_keeps_refl.
Qed.

(** ** Submission *)

Section Submission.

Variable fio_ro_check : machine -> io_u -> bool.

(** C7. With a non-empty batch, submitting a request that fails the
    mergeability test returns busy and leaves the whole machine, and so
    the queued requests, the descriptors, the cumulative byte count and
    the last offset, file and direction, exactly as it was. *)
Theorem unmergeable_is_busy :
  forall (m : machine) (p : ptr) (u : io_u) (fs : sysres),
    heap m !! p = Some u -> fio_ro_check m u = true ->
    queued (sd m) <> 0 -> fio_vsyncio_append (sd m) u = false ->
    fio_vsyncio_queue fio_ro_check m p fs = Some (FIO_Q_BUSY, m).
Proof.
  intros m p u fs Hp Hc Hq Ha. unfold fio_vsyncio_queue.
  rewrite Hp. simpl. rewrite Hc, Ha. simpl.
  destruct (Z.eqb_spec (queued (sd m)) 0) as [| _]; [contradiction |].
  reflexivity.
Qed.


(** ** Invariants of runs *)

Lemma fio_vsyncio_set_iov_Some s p u index s' :
  fio_vsyncio_set_iov s p u index = Some s' ->
  0 <= index
  /\ (Z.to_nat index < length (io_us s))%nat
  /\ (Z.to_nat index < length (iovecs s))%nat
  /\ s' = {| io_us := <[Z.to_nat index := p]> (io_us s);
             iovecs := <[Z.to_nat index :=
                           Iovec (xfer_buf u) (xfer_buflen u)]> (iovecs s);
             last_offset := to_ulong (offset u + xfer_buflen u);
             last_file := file u;
             last_ddir := ddir u;
             queued_bytes := to_ulong (queued_bytes s + xfer_buflen u);
             queued := to_uint (queued s + 1) |}.
Proof.
  unfold fio_vsyncio_set_iov. intros H.
  destruct (Z.ltb_spec index 0); simpl in H; [discriminate |].
  destruct (Z.leb_spec (Z.of_nat (length (io_us s))) index); simpl in H;
    [discriminate |].
  destruct (Z.leb_spec (Z.of_nat (length (iovecs s))) index); simpl in H;
    [discriminate |].
  inversion H; subst. repeat split; lia.
Qed.

Lemma fio_vsyncio_append_true s u :
  fio_vsyncio_append s u = true ->
  ddir u <> DDIR_SYNC /\ offset u = last_offset s
  /\ file u = last_file s /\ ddir u = last_ddir s.
Proof.
  unfold fio_vsyncio_append. intros H.
  assert (Hd : ddir u <> DDIR_SYNC) by (destruct (ddir u); congruence).
  split; [exact Hd |].
  assert (H' : (offset u =? last_offset s) && (file u =? last_file s)%N
               && ddir_eqb (ddir u) (last_ddir s) = true)
    by (destruct (ddir u); congruence).
  apply andb_prop in H'. destruct H' as [H' H3].
  apply andb_prop in H'. destruct H' as [H1 H2].
  apply Z.eqb_eq in H1. apply N.eqb_eq in H2. apply ddir_eqb_eq in H3.
  auto.
Qed.

(** What a submission does, case by case. *)
Lemma fio_vsyncio_queue_cases m p fs r m' :
  fio_vsyncio_queue fio_ro_check m p fs = Some (r, m') ->
  exists u,
    heap m !! p = Some u
    /\ ((r = FIO_Q_BUSY /\ m' = m)
        \/ (queued (sd m) = 0 /\ sd m' = sd m /\ iodepth m' = iodepth m
            /\ heap_keeps (heap m) (heap m'))
        \/ (r = FIO_Q_QUEUED /\ fio_vsyncio_append (sd m) u = false
            /\ queued (sd m) = 0 /\ ddir u <> DDIR_SYNC
            /\ exists s',
                 fio_vsyncio_set_iov
                   (set_queued_bytes (set_queued (sd m) 0) 0) p u 0 = Some s'
                 /\ m' = with_sd m s')
        \/ (r = FIO_Q_QUEUED /\ fio_vsyncio_append (sd m) u = true
            /\ queued (sd m) <> iodepth m
            /\ exists s',
                 fio_vsyncio_set_iov (sd m) p u (to_int (queued (sd m)))
                 = Some s'
                 /\ m' = with_sd m s')).
Proof.
  unfold fio_vsyncio_queue. intros H.
  destruct (heap m !! p) as [u |] eqn:Hp; simpl in H; [| discriminate].
  exists u. split; [reflexivity |].
  destruct (fio_ro_check m u); simpl in H; [| discriminate].
  destruct (fio_vsyncio_append (sd m) u) eqn:Ha; simpl in H.
  - destruct (Z.eqb_spec (queued (sd m)) (iodepth m)) as [Hq | Hq].
    + inversion H; subst. left. auto.
    + destruct (fio_vsyncio_set_iov _ _ _ _) as [s' |] eqn:Hs;
        simpl in H; [| discriminate].
      inversion H; subst. right. right. right. eauto 10.
  - destruct (Z.eqb_spec (queued (sd m)) 0) as [Hq | Hq]; simpl in H.
    + destruct (ddir u) eqn:Hd.
      * destruct (fio_vsyncio_set_iov _ _ _ _) as [s' |] eqn:Hs;
          simpl in H; [| discriminate].
        inversion H; subst. right. right. left.
        repeat split; try assumption; try congruence. eauto.
      * destruct (fio_vsyncio_set_iov _ _ _ _) as [s' |] eqn:Hs;
          simpl in H; [| discriminate].
        inversion H; subst. right. right. left.
        repeat split; try assumption; try congruence. eauto.
      * destruct (file u =? NULL)%N; [discriminate |].
        apply fio_io_end_keeps in H. simpl in H.
        right. left. tauto.
    + inversion H; subst. left. auto.
Qed.

Lemma depth_inv_init depth h :
  0 <= depth -> depth_inv depth (fio_vsyncio_init depth h).
Proof.
  intros Hd. constructor; simpl; try reflexivity.
  - apply length_replicate.
  - apply length_replicate.
  - lia.
  - unfold is_uint, UINT_MOD. lia.
Qed.

Lemma depth_inv_sd depth m m' :
  sd m' = sd m -> iodepth m' = iodepth m ->
  depth_inv depth m -> depth_inv depth m'.
Proof.
  intros Hs Hi [H1 H2 H3 H4 H5]. constructor; rewrite ?Hs, ?Hi; assumption.
Qed.

Lemma depth_inv_queue depth m p fs r m' :
  depth_inv depth m ->
  fio_vsyncio_queue fio_ro_check m p fs = Some (r, m') ->
  depth_inv depth m'.
Proof.
  intros Hinv H. apply fio_vsyncio_queue_cases in H.
  destruct H as (u & Hp & [[_ ->] | [(_ & Hs & Hi & _)
    | [(_ & _ & Hq & _ & s' & Hs & ->) | (_ & _ & Hq & s' & Hs & ->)]]]).
  - exact Hinv.
  - eapply depth_inv_sd; eassumption.
  - apply fio_vsyncio_set_iov_Some in Hs.
    destruct Hs as (_ & Hl1 & Hl2 & ->). destruct Hinv as [H1 H2 H3 H4 H5].
    simpl in Hl1, Hl2.
    constructor; simpl; rewrite ?length_insert; try assumption.
    + change (to_uint (0 + 1)) with 1. lia.
    + apply to_uint_range.
  - apply fio_vsyncio_set_iov_Some in Hs.
    destruct Hs as (Hi0 & Hl1 & Hl2 & ->). destruct Hinv as [H1 H2 H3 H4 H5].
    rewrite (to_int_nonneg _ H5 Hi0) in Hl1.
    constructor; simpl; rewrite ?length_insert; try assumption.
    + unfold is_uint, UINT_MOD in H5.
      destruct (Z_lt_ge_dec (queued (sd m) + 1) (2 ^ 32)) as [Hlt | Hge].
      * rewrite to_uint_id by (unfold is_uint, UINT_MOD; lia). lia.
      * replace (queued (sd m) + 1) with (2 ^ 32) by lia.
        change (to_uint (2 ^ 32)) with 0. lia.
    + apply to_uint_range.
Qed.

Lemma depth_inv_step depth m o m' :
  depth_inv depth m -> step fio_ro_check m o = Some m' -> depth_inv depth m'.
Proof.
  intros Hinv H. destruct o as [p fs | ls xf | min max]; simpl in H.
  - destruct (fio_vsyncio_queue _ _ _ _) as [[r m1] |] eqn:Hq;
      simpl in H; [| discriminate].
    inversion H; subst. eapply depth_inv_queue; eassumption.
  - destruct (fio_vsyncio_commit _ _ _) as [[r m1] |] eqn:Hc;
      simpl in H; [| discriminate].
    inversion H; subst. apply fio_vsyncio_commit_keeps in Hc.
    eapply depth_inv_sd; [apply Hc | apply Hc | exact Hinv].
  - inversion H; subst. unfold fio_vsyncio_getevents.
    destruct (min =? 0); simpl; [exact Hinv |].
    destruct Hinv as [H1 H2 H3 H4 H5]. constructor; simpl; try assumption.
    + lia.
    + unfold is_uint, UINT_MOD. lia.
Qed.

Lemma depth_inv_run depth ops :
  forall m m',
    depth_inv depth m -> run fio_ro_check m ops = Some m' ->
    depth_inv depth m'.
Proof.
  induction ops as [| o ops IH]; simpl; intros m m' Hinv H.
  - inversion H; subst. exact Hinv.
  - destruct (step fio_ro_check m o) as [m1 |] eqn:Hs; simpl in H;
      [| discriminate].
    eapply IH; [| exact H]. eapply depth_inv_step; eassumption.
Qed.

Lemma to_int_lt z : to_int z < 2 ^ 31.
Proof.
  unfold to_int, UINT_MOD.
  pose proof (Z.mod_pos_bound (z + 2 ^ 31) (2 ^ 32)). lia.
Qed.

Lemma batch_inv_keeps m m' :
  sd m' = sd m -> heap_keeps (heap m) (heap m') ->
  batch_inv m -> batch_inv m'.
Proof.
  intros Hs Hk [Hok (us & start & [Hq Hpt] & Hc & Hl)].
  destruct (heap_keeps_points_to _ _ _ _ Hk Hpt) as (us' & Hpt' & Hsame).
  constructor.
  - eapply heap_keeps_ok; eassumption.
  - exists us', start. rewrite Hs. split; [| split].
    + split; rewrite Hs; [| exact Hpt'].
      rewrite Hq. f_equal. eapply Forall2_length. exact Hsame.
    + eapply contiguous_from_same; eassumption.
    + intros Hne. rewrite <- (total_len_same _ _ Hsame). apply Hl.
      intros ->. inversion Hsame; subst. congruence.
Qed.

Lemma batch_inv_empty m :
  heap_ok (heap m) -> queued (sd m) = 0 -> batch_inv m.
Proof.
  intros Hok Hq. constructor; [exact Hok |].
  exists [], 0. split; [| split].
  - split; [exact Hq |]. unfold batch_ptrs. rewrite Hq. constructor.
  - exact I.
  - congruence.
Qed.

Lemma batch_inv_queue depth m p fs r m' :
  depth_inv depth m -> batch_inv m ->
  fio_vsyncio_queue fio_ro_check m p fs = Some (r, m') ->
  batch_inv m'.
Proof.
  intros Hdi Hbi H. apply fio_vsyncio_queue_cases in H.
  destruct H as (u & Hp & [[_ ->] | [(_ & Hs & Hi & Hk)
    | [(_ & _ & Hq & _ & s' & Hs & ->) | (_ & Ha & Hq & s' & Hs & ->)]]]).
  - exact Hbi.
  - eapply batch_inv_keeps; eassumption.
  - apply fio_vsyncio_set_iov_Some in Hs.
    destruct Hs as (_ & Hl1 & _ & ->). simpl in Hl1.
    destruct Hbi as [Hok _]. pose proof (Hok p u Hp) as (Ho1 & Ho2 & Ho3).
    constructor; [exact Hok |].
    exists [u], (offset u). split; [| split].
    + split; [reflexivity |]. unfold batch_ptrs. simpl.
      change (Z.to_nat (to_uint (0 + 1))) with 1%nat.
      destruct (io_us (sd m)) as [| x l]; [simpl in Hl1; lia |].
      simpl. rewrite take_0. repeat constructor. exact Hp.
    + simpl. auto.
    + intros _. simpl. rewrite to_ulong_id; [lia |].
      unfold is_ulong. lia.
  - apply fio_vsyncio_set_iov_Some in Hs.
    destruct Hs as (Hi0 & Hl1 & _ & ->).
    destruct Hdi as [H1 H2 H3 H4 H5].
    pose proof (to_int_lt (queued (sd m))) as Hlt.
    rewrite (to_int_nonneg _ H5 Hi0) in Hl1, Hlt |- *.
    apply fio_vsyncio_append_true in Ha.
    destruct Ha as (_ & Hao & Haf & Had).
    destruct Hbi as [Hok (us & start & [Hqu Hpt] & Hc & Hl)].
    pose proof (Hok p u Hp) as (Ho1 & Ho2 & Ho3).
    constructor; [exact Hok |].
    exists (us ++ [u]), (if decide (us = []) then offset u else start).
    assert (Hq1 : to_uint (queued (sd m) + 1) = queued (sd m) + 1)
      by (apply to_uint_id; unfold is_uint, UINT_MOD; lia).
    split; [| split].
    + split; simpl.
      * rewrite Hq1, length_app, Hqu. simpl. lia.
      * unfold batch_ptrs. simpl. rewrite Hq1.
        replace (Z.to_nat (queued (sd m) + 1))
          with (S (Z.to_nat (queued (sd m)))) by lia.
        rewrite (take_S_r _ _ p)
          by (apply list_lookup_insert_eq; exact Hl1).
        rewrite take_insert_ge by lia.
        apply Forall2_app; [exact Hpt |]. repeat constructor. exact Hp.
    + simpl. destruct (decide (us = [])) as [-> | Hne].
      * simpl. auto.
      * rewrite <- Haf, <- Had in Hc.
        apply contiguous_from_snoc; try reflexivity; [exact Hc |].
        rewrite Hao. apply Hl. exact Hne.
    + intros _. simpl. rewrite total_len_app. simpl.
      rewrite to_ulong_id by (unfold is_ulong; lia).
      destruct (decide (us = [])) as [-> | Hne].
      * simpl. lia.
      * rewrite Hao, (Hl Hne). lia.
Qed.

Lemma batch_inv_step depth m o m' :
  depth_inv depth m -> batch_inv m ->
  step fio_ro_check m o = Some m' -> batch_inv m'.
Proof.
  intros Hdi Hbi H. destruct o as [p fs | ls xf | min max]; simpl in H.
  - destruct (fio_vsyncio_queue _ _ _ _) as [[r m1] |] eqn:Hq;
      simpl in H; [| discriminate].
    inversion H; subst. eapply batch_inv_queue; eassumption.
  - destruct (fio_vsyncio_commit _ _ _) as [[r m1] |] eqn:Hc;
      simpl in H; [| discriminate].
    inversion H; subst. apply fio_vsyncio_commit_keeps in Hc.
    eapply batch_inv_keeps; [apply Hc | apply Hc | exact Hbi].
  - inversion H; subst. unfold fio_vsyncio_getevents.
    destruct (min =? 0); simpl; [exact Hbi |].
    apply batch_inv_empty; [apply Hbi | reflexivity].
Qed.

Lemma batch_inv_run depth ops :
  forall m m',
    depth_inv depth m -> batch_inv m ->
    run fio_ro_check m ops = Some m' -> batch_inv m'.
Proof.
  induction ops as [| o ops IH]; simpl; intros m m' Hdi Hbi H.
  - inversion H; subst. exact Hbi.
  - destruct (step fio_ro_check m o) as [m1 |] eqn:Hs; simpl in H;
      [| discriminate].
    eapply IH; [| | exact H].
    + eapply depth_inv_step; eassumption.
    + eapply batch_inv_step; eassumption.
Qed.

Lemma contiguous_from_shares f d us :
  forall start, contiguous_from f d start us ->
    Forall (fun u => file u = f /\ ddir u = d) us.
Proof.
  induction us as [| u us IH]; simpl; intros start H; constructor.
  - tauto.
  - eapply IH. apply H.
Qed.

Lemma contiguous_from_gapless f d us :
  forall start, contiguous_from f d start us -> gapless us.
Proof.
  induction us as [| u us IH]; intros start H i a b Ha Hb.
  - discriminate.
  - destruct H as (_ & _ & Ho & Hc). destruct i as [| i]; simpl in Ha, Hb.
    + inversion Ha; subst. destruct us as [| v us]; [discriminate |].
      simpl in Hb. inversion Hb; subst. destruct Hc as (_ & _ & Hv & _).
      exact Hv.
    + eapply IH; eassumption.
Qed.

Lemma contiguous_from_head f d start u us :
  contiguous_from f d start (u :: us) -> offset u = start.
Proof. simpl. tauto. Qed.

(** C5. The queued count never exceeds the configured depth: in every
    state a run of submissions, commits and polls reaches from the
    initial state, the count is between 0 and the depth, and it is the
    number of queued requests.  A mergeable request submitted when the
    count equals the depth is answered busy and the machine stays as it
    was, so nothing is appended. *)
Theorem occupancy_within_depth :
  (forall (depth : Z) (h : gmap ptr io_u) (ops : list op) (m : machine),
      0 <= depth ->
      run fio_ro_check (fio_vsyncio_init depth h) ops = Some m ->
      iodepth m = depth
      /\ 0 <= queued (sd m) <= depth
      /\ Z.of_nat (length (batch_ptrs (sd m))) = queued (sd m))
  /\ (forall (m : machine) (p : ptr) (u : io_u) (fs : sysres),
        heap m !! p = Some u -> fio_ro_check m u = true ->
        fio_vsyncio_append (sd m) u = true ->
        queued (sd m) = iodepth m ->
        fio_vsyncio_queue fio_ro_check m p fs = Some (FIO_Q_BUSY, m)).
Proof.
  split.
  - intros depth h ops m Hd Hrun.
    pose proof (depth_inv_run depth ops _ _ (depth_inv_init depth h Hd) Hrun)
      as [H1 H2 H3 H4 H5].
    repeat split; try assumption; try lia.
    unfold batch_ptrs. rewrite length_take. lia.
  - intros m p u fs Hp Hc Ha Hq. unfold fio_vsyncio_queue.
    rewrite Hp. simpl. rewrite Hc, Ha. simpl.
    rewrite Hq, Z.eqb_refl. reflexivity.
Qed.

(** C6. In every state a run reaches from the initial state over a
    store of requests whose byte ranges lie in the offset space, the
    queued requests of a non-empty batch all have the file and the
    direction the engine tracks, each one starts at the offset where the
    one before it ends, and the tracked end offset is the first
    request's offset plus the sum of the lengths: the batch covers
    [first.offset, first.offset + sum of lengths). *)
Theorem batch_is_contiguous :
  forall (depth : Z) (h : gmap ptr io_u) (ops : list op) (m : machine),
    0 <= depth -> heap_ok h ->
    run fio_ro_check (fio_vsyncio_init depth h) ops = Some m ->
    queued (sd m) <> 0 ->
    exists (first : io_u) (rest : list io_u),
      batch m (first :: rest)
      /\ Forall (fun u => file u = last_file (sd m)
                          /\ ddir u = last_ddir (sd m)) (first :: rest)
      /\ gapless (first :: rest)
      /\ last_offset (sd m) = offset first + total_len (first :: rest).
Proof.
  intros depth h ops m Hd Hok Hrun Hq.
  pose proof (depth_inv_init depth h Hd) as Hdi.
  assert (Hbi : batch_inv (fio_vsyncio_init depth h))
    by (apply batch_inv_empty; [exact Hok | reflexivity]).
  pose proof (batch_inv_run depth ops _ _ Hdi Hbi Hrun)
    as [_ (us & start & Hb & Hc & Hl)].
  destruct us as [| first rest].
  { destruct Hb as [Hq0 _]. simpl in Hq0. contradiction. }
  exists first, rest. split; [exact Hb |]. split; [| split].
  - eapply contiguous_from_shares. exact Hc.
  - eapply contiguous_from_gapless. exact Hc.
  - rewrite (contiguous_from_head _ _ _ _ _ Hc). apply Hl. discriminate.
Qed.

(** C2 (as amended).  Commit does not clear the batch: whatever its
    outcome, the engine data (queued requests, descriptors, queued
    count, cumulative bytes, last offset, file and direction) is after
    the call what it was before.  The next poll with [min >= 1] sets the
    queued count to zero and changes nothing else of the engine data.
    The cumulative bytes start again when a later request that fails the
    mergeability test opens a fresh batch: the batch is then that one
    request and the cumulative bytes are its length. *)
Theorem commit_leaves_batch_to_poll :
  forall (m : machine) (ls xf : sysres) (r : Z) (m' : machine),
    fio_vsyncio_commit m ls xf = Some (r, m') ->
    sd m' = sd m
    /\ (forall min max,
          1 <= min ->
          sd (snd (fio_vsyncio_getevents m' min max)) = set_queued (sd m) 0)
    /\ (forall min max p u fs,
          1 <= min ->
          io_us (sd m) <> [] -> iovecs (sd m) <> [] ->
          heap m' !! p = Some u -> is_ulong (xfer_buflen u) ->
          ddir u <> DDIR_SYNC ->
          fio_ro_check (snd (fio_vsyncio_getevents m' min max)) u = true ->
          fio_vsyncio_append (sd m) u = false ->
          exists m'',
            fio_vsyncio_queue fio_ro_check
              (snd (fio_vsyncio_getevents m' min max)) p fs
            = Some (FIO_Q_QUEUED, m'')
            /\ queued (sd m'') = 1
            /\ queued_bytes (sd m'') = xfer_buflen u
            /\ batch_ptrs (sd m'') = [p]).
Proof.
  intros m ls xf r m' Hc.
  apply fio_vsyncio_commit_keeps in Hc. destruct Hc as (Hsd & _ & _).
  split; [exact Hsd |].
  assert (Hpoll : forall min max, 1 <= min ->
            fio_vsyncio_getevents m' min max
            = (to_int (queued (sd m')), with_sd m' (set_queued (sd m') 0))).
  { intros min max Hmin. unfold fio_vsyncio_getevents.
    destruct (Z.eqb_spec min 0) as [| _]; [lia | reflexivity]. }
  split.
  - intros min max Hmin. rewrite (Hpoll min max Hmin). simpl.
    rewrite Hsd. reflexivity.
  - intros min max p u fs Hmin Hus Hiov Hp Hlen Hd Hchk Ha.
    rewrite (Hpoll min max Hmin) in *. simpl in Hchk.
    unfold fio_vsyncio_queue. simpl. rewrite Hp. simpl. rewrite Hchk.
    rewrite Hsd.
    assert (Ha' : fio_vsyncio_append (set_queued (sd m) 0) u = false)
      by exact Ha.
    rewrite Ha'. simpl.
    unfold fio_vsyncio_set_iov. simpl.
    destruct (io_us (sd m)) as [| x l] eqn:Hl; [congruence |].
    destruct (iovecs (sd m)) as [| y k] eqn:Hk; [congruence |].
    simpl.
    destruct (ddir u); try congruence;
      (eexists; split; [reflexivity |]; simpl;
       repeat split; [apply to_ulong_id; exact Hlen]).
Qed.

End Submission.

(** ** Queued requests are distinct objects *)

Lemma contiguous_from_later f d us :
  forall start i v,
    contiguous_from f d start us ->
    Forall (fun u => 0 < xfer_buflen u) us ->
    us !! i = Some v -> start <= offset v.
Proof.
  induction us as [| u us IH]; intros start i v Hc Hpos Hv.
  - discriminate.
  - destruct Hc as (_ & _ & Ho & Hc). inversion Hpos; subst.
    destruct i as [| i]; simpl in Hv.
    + inversion Hv; subst. lia.
    + specialize (IH _ _ _ Hc H2 Hv). lia.
Qed.

Lemma contiguous_from_increasing f d us :
  forall start i j u v,
    contiguous_from f d start us ->
    Forall (fun u => 0 < xfer_buflen u) us ->
    (i < j)%nat -> us !! i = Some u -> us !! j = Some v ->
    offset u < offset v.
Proof.
  induction us as [| w us IH]; intros start i j u v Hc Hpos Hij Hu Hv.
  - discriminate.
  - destruct Hc as (_ & _ & Ho & Hc). inversion Hpos; subst.
    destruct j as [| j]; [lia |]. simpl in Hv.
    destruct i as [| i]; simpl in Hu.
    + inversion Hu; subst.
      pose proof (contiguous_from_later _ _ _ _ _ _ Hc H2 Hv). lia.
    + apply (IH _ i j u v Hc H2); [lia | exact Hu | exact Hv].
Qed.

(** In a state that satisfies the invariant, the queued requests of
    non-zero length are pairwise distinct objects: the condition under
    which short-transfer resolution is stated. *)
Lemma batch_inv_distinct m us :
  batch_inv m -> batch m us ->
  Forall (fun u => 0 < xfer_buflen u) us ->
  NoDup (batch_ptrs (sd m)).
Proof.
  intros [_ (us' & start & [_ Hpt'] & Hc & _)] [_ Hpt] Hpos.
  assert (Heq : us' = us).
  { clear -Hpt Hpt'. revert us' Hpt'.
    induction Hpt as [| p u ps us Hp _ IH]; intros us' Hpt';
      inversion Hpt'; subst; [reflexivity |].
    f_equal; [congruence | apply IH; assumption]. }
  subst us'. apply NoDup_alt. intros i j p Hi Hj.
  destruct (Forall2_lookup_l _ _ _ _ _ Hpt Hi) as (u & Hu & Hpu).
  destruct (Forall2_lookup_l _ _ _ _ _ Hpt Hj) as (v & Hv & Hpv).
  assert (u = v) by congruence. subst v.
  destruct (Nat.lt_trichotomy i j) as [Hlt | [Heq | Hgt]]; [| exact Heq |].
  - pose proof (contiguous_from_increasing _ _ _ _ _ _ _ _ Hc Hpos Hlt Hu Hv).
    lia.
  - pose proof (contiguous_from_increasing _ _ _ _ _ _ _ _ Hc Hpos Hgt Hv Hu).
    lia.
Qed.

(** ** Runs do not fault *)

Section Progress.

Variable fio_ro_check : machine -> io_u -> bool.

(** The thread passes the assertion of [fio_ro_check] on every request. *)
Hypothesis ro_ok : forall m u, fio_ro_check m u = true.

Lemma resolve_defined err ps :
  forall bytes h,
    Forall (fun p => is_Some (h !! p)) ps ->
    is_Some (resolve err ps bytes h).
Proof.
  induction ps as [| p ps IH]; simpl; intros bytes h Hall.
  - eauto.
  - inversion Hall as [| ? ? [u Hp] Hall']; subst. rewrite Hp. simpl.
    assert (Hins : forall v,
      Forall (fun q => is_Some (<[p := v]> h !! q)) ps).
    { intros v. eapply Forall_impl; [exact Hall' |]. intros q [w Hq].
      destruct (decide (p = q)) as [-> | Hne].
      - rewrite lookup_insert_eq. eauto.
      - rewrite lookup_insert_ne by exact Hne. eauto. }
    destruct (bytes =? -1); apply IH; apply Hins.
Qed.

Lemma files_ok_keeps (h h' : gmap ptr io_u) :
  heap_keeps h h' -> files_ok h -> files_ok h'.
Proof.
  intros Hk Hok p u' Hp. specialize (Hk p). rewrite Hp in Hk.
  inversion Hk as [u v Hs Hu Hv|]; subst. symmetry in Hu.
  destruct Hs as (_ & Hf & _). rewrite <- Hf. eapply Hok. exact Hu.
Qed.

Lemma heap_keeps_is_Some (h h' : gmap ptr io_u) p :
  heap_keeps h h' -> is_Some (h !! p) -> is_Some (h' !! p).
Proof.
  intros Hk [u Hp]. specialize (Hk p). rewrite Hp in Hk.
  inversion Hk; subst. eauto.
Qed.

Lemma step_keeps m o m' :
  step fio_ro_check m o = Some m' -> heap_keeps (heap m) (heap m').
Proof.
  intros H. destruct o as [p fs | ls xf | min max]; simpl in H.
  - destruct (fio_vsyncio_queue _ _ _ _) as [[r m1] |] eqn:Hq;
      simpl in H; [| discriminate].
    inversion H; subst. apply fio_vsyncio_queue_cases in Hq.
    destruct Hq as (u & Hp & [[_ ->] | [(_ & _ & _ & Hk)
      | [(_ & _ & _ & _ & s' & _ & ->) | (_ & _ & _ & s' & _ & ->)]]]);
      try exact Hk; apply heap_keeps_refl.
  - destruct (fio_vsyncio_commit _ _ _) as [[r m1] |] eqn:Hc;
      simpl in H; [| discriminate].
    inversion H; subst. apply fio_vsyncio_commit_keeps in Hc. apply Hc.
  - inversion H; subst. unfold fio_vsyncio_getevents.
    destruct (min =? 0); apply heap_keeps_refl.
Qed.

Lemma fio_vsyncio_queue_defined depth m p fs :
  1 <= depth <= 2 ^ 31 -> depth_inv depth m -> files_ok (heap m) ->
  is_Some (heap m !! p) ->
  is_Some (fio_vsyncio_queue fio_ro_check m p fs).
Proof.
  intros Hd [H1 H2 H3 H4 H5] Hfiles [u Hp]. unfold fio_vsyncio_queue.
  rewrite Hp. simpl. rewrite ro_ok. simpl.
  assert (Hset : forall s index,
    length (io_us s) = Z.to_nat depth ->
    length (iovecs s) = Z.to_nat depth ->
    0 <= index < depth ->
    is_Some (fio_vsyncio_set_iov s p u index)).
  { intros s index Hl1 Hl2 Hi. unfold fio_vsyncio_set_iov.
    destruct (Z.ltb_spec index 0); [lia |].
    destruct (Z.leb_spec (Z.of_nat (length (io_us s))) index); [lia |].
    destruct (Z.leb_spec (Z.of_nat (length (iovecs s))) index); [lia |].
    simpl. eauto. }
  destruct (fio_vsyncio_append (sd m) u); simpl.
  - destruct (Z.eqb_spec (queued (sd m)) (iodepth m)) as [| Hne]; [eauto |].
    destruct (Hset (sd m) (to_int (queued (sd m)))) as [s' Hs'];
      try assumption.
    + rewrite to_int_id; lia.
    + rewrite Hs'. simpl. eauto.
  - destruct (Z.eqb_spec (queued (sd m)) 0) as [Hq | Hq]; simpl; [| eauto].
    destruct (Hset (set_queued_bytes (set_queued (sd m) 0) 0) 0)
      as [s' Hs']; try assumption; [lia |].
    destruct (ddir u) eqn:Hdd; try (rewrite Hs'; simpl; eauto).
    destruct (N.eqb_spec (file u) NULL) as [Hnull | _].
    + exfalso. eapply Hfiles; eassumption.
    + unfold fio_io_end. simpl. rewrite Hp. simpl.
      repeat match goal with
             | |- context [if ?c then _ else _] => destruct c
             end; eauto.
Qed.

Lemma fio_vsyncio_commit_defined m ls xf :
  batch_inv m -> files_ok (heap m) ->
  is_Some (fio_vsyncio_commit m ls xf).
Proof.
  intros [_ (us & start & Hb & Hc & _)] Hfiles.
  unfold fio_vsyncio_commit.
  destruct (Z.eqb_spec (queued (sd m)) 0) as [| Hq]; [eauto |].
  pose proof Hb as [Hqu Hpt].
  destruct us as [| u0 us0]; [simpl in Hqu; contradiction |].
  assert (Hhd : exists p0, io_us (sd m) !! 0%nat = Some p0
                           /\ heap m !! p0 = Some u0).
  { unfold batch_ptrs in Hpt. rewrite Hqu in Hpt.
    destruct (io_us (sd m)) as [| p0 l].
    - rewrite take_nil in Hpt. inversion Hpt.
    - replace (Z.to_nat (Z.of_nat (length (u0 :: us0))))
        with (S (length us0)) in Hpt by (simpl; lia).
      simpl in Hpt. inversion Hpt; subst. eauto. }
  destruct Hhd as (p0 & Hp0 & Hu0).
  destruct Hc as (Hf & _).
  destruct (N.eqb_spec (last_file (sd m)) NULL) as [Hnull | _].
  { exfalso. eapply Hfiles; [exact Hu0 | congruence]. }
  rewrite Hp0. simpl. rewrite Hu0. simpl.
  destruct (sr_ret ls =? -1); [eauto |].
  unfold fio_vsyncio_end.
  match goal with |- context [if ?c then _ else _] => destruct c end;
    [eauto |].
  match goal with |- context [vsyncio_end_loop (sd ?m2) ?e ?n 0 ?b ?h] =>
    change (vsyncio_end_loop (sd m2) e n 0 b h)
      with (vsyncio_end_loop (sd m) e (Z.to_nat (queued (sd m))) 0 b
              (heap m)) end.
  rewrite (vsyncio_end_loop_batch m (u0 :: us0)) by exact Hb.
  destruct (resolve_defined
              (errno
                 (do_syscall
                    (do_syscall m
                       (SysLseek (last_file (sd m)) (offset u0)) ls)
                    match last_ddir (sd m) with
                    | DDIR_READ =>
                        SysReadv (last_file (sd m))
                          (take (Z.to_nat (queued (sd m))) (iovecs (sd m)))
                    | _ =>
                        SysWritev (last_file (sd m))
                          (take (Z.to_nat (queued (sd m))) (iovecs (sd m)))
                    end xf))
              (batch_ptrs (sd m)) (sr_ret xf) (heap m))
    as [[b h'] Hr].
  { eapply Forall_points_to_is_Some. exact Hpt. }
  rewrite Hr. simpl. destruct (b =? -1); eauto.
Qed.

(** The calls of a run that hand the engine a request hand it one that
    is in the store. *)
Lemma run_defined depth ops :
  1 <= depth <= 2 ^ 31 ->
  forall m,
    depth_inv depth m -> batch_inv m -> files_ok (heap m) ->
    Forall (op_ok (heap m)) ops ->
    is_Some (run fio_ro_check m ops).
Proof.
  intros Hd. induction ops as [| o ops IH]; simpl; intros m Hdi Hbi Hf Hops.
  - eauto.
  - inversion Hops as [| ? ? Ho Hops']; subst.
    assert (Hstep : is_Some (step fio_ro_check m o)).
    { destruct o as [p fs | ls xf | min max]; simpl.
      - destruct (fio_vsyncio_queue_defined depth m p fs)
          as [[r m1] Hq]; try assumption.
        rewrite Hq. simpl. eauto.
      - destruct (fio_vsyncio_commit_defined m ls xf) as [[r m1] Hc];
          try assumption.
        rewrite Hc. simpl. eauto.
      - eauto. }
    destruct Hstep as [m1 Hs]. rewrite Hs. simpl.
    pose proof (step_keeps _ _ _ Hs) as Hk.
    apply IH.
    + eapply depth_inv_step; eassumption.
    + eapply batch_inv_step; eassumption.
    + eapply files_ok_keeps; eassumption.
    + eapply Forall_impl; [exact Hops' |]. intros o' Ho'.
      destruct o' as [p fs | |]; simpl in *; try exact I.
      eapply heap_keeps_is_Some; eassumption.
Qed.

(** No run faults: from the initial state of an engine of depth between
    1 and 2^31, over a store of requests that name files, every sequence
    of calls on requests of the store runs to its end. *)
Lemma run_init_defined depth h ops :
  1 <= depth <= 2 ^ 31 -> heap_ok h -> files_ok h ->
  Forall (op_ok h) ops ->
  is_Some (run fio_ro_check (fio_vsyncio_init depth h) ops).
Proof.
  intros Hd Hok Hf Hops. apply (run_defined depth ops Hd); try assumption.
  - apply depth_inv_init. lia.
  - apply batch_inv_empty; [exact Hok | reflexivity].
Qed.

End Progress.

(** * The theorems at work on the example *)

Lemma ex_heap_ok : heap_ok ex_heap.
Proof.
  intros p u H. unfold ex_heap in H.
  repeat (rewrite lookup_insert in H; case_decide;
          [inversion H; subst; vm_compute; intuition discriminate |]).
  rewrite lookup_empty in H. discriminate.
Qed.

Lemma ex_batch3_batch :
  batch ex_batch3
    [ex_req DDIR_READ 0 100; ex_req DDIR_READ 100 200;
     ex_req DDIR_READ 300 50].
Proof. split; [reflexivity | repeat constructor]. Qed.

Lemma ex_batch3_distinct : NoDup (batch_ptrs (sd ex_batch3)).
Proof. compute_done. Qed.

Lemma ex_fits :
  fits_uint
    [ex_req DDIR_READ 0 100; ex_req DDIR_READ 100 200;
     ex_req DDIR_READ 300 50].
Proof. repeat constructor; discriminate. Qed.


Lemma short_transfer_conservation_witness :
  exists m' us',
    fio_vsyncio_end ex_batch3 250 = Some (0, m')
    /\ batch m' us' /\ sum_resid us' = 100
    /\ Forall (fun u => error u = 0) us'.
Proof.
  destruct (short_transfer_conservation ex_batch3
              [ex_req DDIR_READ 0 100; ex_req DDIR_READ 100 200;
               ex_req DDIR_READ 300 50] 250)
    as (m' & us' & He & _ & Hb & Hs & Herr).
  - exact ex_batch3_batch.
  - exact ex_batch3_distinct.
  - exact ex_fits.
  - unfold is_uint, UINT_MOD. lia.
  - simpl. lia.
  - simpl. lia.
  - exists m', us'.
    split; [exact He | split; [exact Hb | split; [exact Hs | exact Herr]]].
Defined.


Lemma positioning_failure_keeps_batch_witness :
  exists m',
    fio_vsyncio_commit ex_batch3 (fail_res 29) (ok_res 350) = Some (-29, m')
    /\ trace m' = [SysLseek ex_file 0]
    /\ verrors m' = [(29, "lseek"%string)]
    /\ sd m' = sd ex_batch3 /\ heap m' = ex_heap.
Proof.
  destruct (positioning_failure_keeps_batch ex_batch3 (fail_res 29)
              (ok_res 350) 1%N (ex_req DDIR_READ 0 100))
    as (m' & Hc & _ & Ht & Hv & Hs & Hh).
  - simpl. lia.
  - discriminate.
  - reflexivity.
  - reflexivity.
  - reflexivity.
  - simpl. lia.
  - exists m'.
    split; [exact Hc | split; [exact Ht | split; [exact Hv | split;
      [exact Hs | exact Hh]]]].
Defined.

Lemma unmergeable_is_busy_witness :
  fio_vsyncio_queue ex_check ex_batch3 4%N (ok_res 0)
  = Some (FIO_Q_BUSY, ex_batch3).
Proof.
  apply (unmergeable_is_busy ex_check ex_batch3 4%N
           (ex_req DDIR_READ 1000 10) (ok_res 0)).
  - reflexivity.
  - reflexivity.
  - simpl. lia.
  - reflexivity.
Defined.

Lemma ex_run_batch3 :
  run ex_check (fio_vsyncio_init 4 ex_heap) ex_queue3 = Some ex_batch3.
Proof. vm_compute. reflexivity. Qed.

Lemma ex_run_full3 :
  run ex_check (fio_vsyncio_init 3 ex_heap) ex_queue3 = Some ex_full3.
Proof. vm_compute. reflexivity. Qed.

Lemma occupancy_within_depth_witness :
  0 <= queued (sd ex_full3) <= 3
  /\ fio_vsyncio_queue ex_check ex_full3 5%N (ok_res 0)
     = Some (FIO_Q_BUSY, ex_full3).
Proof.
  split.
  - apply (proj1 (occupancy_within_depth ex_check) 3 ex_heap ex_queue3
             ex_full3).
    + lia.
    + exact ex_run_full3.
  - apply (proj2 (occupancy_within_depth ex_check) ex_full3 5%N
             (ex_req DDIR_READ 350 10) (ok_res 0)); reflexivity.
Defined.

Lemma batch_is_contiguous_witness :
  exists first rest,
    batch ex_batch3 (first :: rest)
    /\ gapless (first :: rest)
    /\ last_offset (sd ex_batch3) = offset first + total_len (first :: rest).
Proof.
  destruct (batch_is_contiguous ex_check 4 ex_heap ex_queue3 ex_batch3)
    as (first & rest & Hb & _ & Hg & Hl).
  - lia.
  - exact ex_heap_ok.
  - exact ex_run_batch3.
  - simpl. lia.
  - exists first, rest. split; [exact Hb | split; [exact Hg | exact Hl]].
Defined.

(** C4, counterexample.  One read of 100 bytes at offset 0 is queued,
    committed in full and reaped by a poll.  The batch is then empty,
    and the read of 200 bytes at offset 100 passes the mergeability
    test: it is the first request of the next batch and it is appended
    through the merge path, on top of the 100 bytes still counted. *)
Lemma merge_into_emptied_batch_counterexample :
  exists m,
    run ex_check (fio_vsyncio_init 4 ex_heap)
      [OpQueue 1%N (ok_res 0); OpCommit (ok_res 0) (ok_res 100);
       OpGetevents 1 1] = Some m
    /\ queued (sd m) = 0
    /\ batch_ptrs (sd m) = []
    /\ heap m !! 2%N = Some (ex_req DDIR_READ 100 200)
    /\ fio_vsyncio_append (sd m) (ex_req DDIR_READ 100 200) = true
    /\ exists m',
         fio_vsyncio_queue ex_check m 2%N (ok_res 0)
         = Some (FIO_Q_QUEUED, m')
         /\ queued (sd m') = 1 /\ queued_bytes (sd m') = 300.
Proof.
  eexists. split; [vm_compute; reflexivity |].
  repeat split. eexists. split; [vm_compute; reflexivity |].
  split; reflexivity.
Qed.

(** C2, counterexample.  The batch of the three adjacent reads is
    committed and the transfer moves all 350 bytes.  After the commit
    the queued count is still 3 and the cumulative bytes are still 350,
    and the read at offset 350 passes the mergeability test. *)
Lemma commit_keeps_batch_counterexample :
  exists m',
    fio_vsyncio_commit ex_batch3 (ok_res 0) (ok_res 350) = Some (0, m')
    /\ queued (sd m') = 3
    /\ queued_bytes (sd m') = 350
    /\ last_offset (sd m') = 350
    /\ fio_vsyncio_append (sd m') (ex_req DDIR_READ 350 10) = true
    /\ exists m'',
         fio_vsyncio_queue ex_check m' 5%N (ok_res 0)
         = Some (FIO_Q_QUEUED, m'')
         /\ queued (sd m'') = 4.
Proof.
  eexists. split; [vm_compute; reflexivity |].
  repeat split. eexists. split; [vm_compute; reflexivity |]. reflexivity.
Qed.

Lemma commit_leaves_batch_to_poll_witness :
  exists m' m'',
    fio_vsyncio_commit ex_batch3 (ok_res 0) (ok_res 350) = Some (0, m')
    /\ sd m' = sd ex_batch3
    /\ sd (snd (fio_vsyncio_getevents m' 1 8)) = set_queued (sd ex_batch3) 0
    /\ fio_vsyncio_queue ex_check (snd (fio_vsyncio_getevents m' 1 8)) 4%N
         (ok_res 0) = Some (FIO_Q_QUEUED, m'')
    /\ queued (sd m'') = 1 /\ queued_bytes (sd m'') = 10.
Proof.
  assert (Hc : exists m',
    fio_vsyncio_commit ex_batch3 (ok_res 0) (ok_res 350) = Some (0, m'))
    by (eexists; vm_compute; reflexivity).
  destruct Hc as (m' & Hc).
  destruct (commit_leaves_batch_to_poll ex_check ex_batch3 (ok_res 0)
              (ok_res 350) 0 m' Hc) as (Hsd & Hpoll & Hfresh).
  assert (Hh : heap m' !! 4%N = Some (ex_req DDIR_READ 1000 10)).
  { pose proof Hc as Hc'. vm_compute in Hc'. inversion Hc'; subst.
    vm_compute. reflexivity. }
  destruct (Hfresh 1 8 4%N (ex_req DDIR_READ 1000 10) (ok_res 0))
    as (m'' & Hq & Hq1 & Hqb & _).
  - lia.
  - discriminate.
  - discriminate.
  - exact Hh.
  - unfold is_ulong, ULONG_MOD. simpl. lia.
  - discriminate.
  - reflexivity.
  - reflexivity.
  - exists m', m''.
    split; [exact Hc | split; [exact Hsd | split; [apply Hpoll; lia |
      split; [exact Hq | split; [exact Hq1 | exact Hqb]]]]].
Defined.

(** * Further properties of the engines *)

(** ** Completion of one request: [fio_io_end] *)

Lemma fio_io_end_short_eq m p u ret :
  heap m !! p = Some u -> 0 <= ret -> ret <> to_int (xfer_buflen u) ->
  fio_io_end m p ret
  = Some (FIO_Q_COMPLETED,
          with_heap m
            (<[p := resolved u (to_uint (to_ulong (xfer_buflen u - ret)))]>
               (heap m))).
Proof.
  intros Hp Hret Hne. unfold fio_io_end. rewrite Hp. simpl.
  destruct (Z.eqb_spec ret (to_int (xfer_buflen u))) as [| _];
    [contradiction |].
  simpl. destruct (Z.leb_spec 0 ret); [reflexivity | lia].
Qed.

Lemma fio_io_end_fail_eq m p u ret :
  heap m !! p = Some u -> ret < 0 -> ret <> to_int (xfer_buflen u) ->
  fio_io_end m p ret
  = Some (FIO_Q_COMPLETED,
          let u' := set_error u (to_uint (errno m)) in
          let m' := with_heap m (<[p := u']> (heap m)) in
          if error u' =? 0 then m' else td_verror m' (error u') "xfer").
Proof.
  intros Hp Hret Hne. unfold fio_io_end. rewrite Hp. simpl.
  destruct (Z.eqb_spec ret (to_int (xfer_buflen u))) as [| _];
    [contradiction |].
  simpl. destruct (Z.leb_spec 0 ret); [lia | reflexivity].
Qed.

Lemma fio_io_end_full_eq m p u ret :
  heap m !! p = Some u -> ret = to_int (xfer_buflen u) ->
  fio_io_end m p ret
  = Some (FIO_Q_COMPLETED,
          if error u =? 0 then m else td_verror m (error u) "xfer").
Proof.
  intros Hp Hret. unfold fio_io_end. rewrite Hp. simpl.
  rewrite Hret, Z.eqb_refl. reflexivity.
Qed.

Lemma to_int_uint_nonneg len ret :
  is_uint len -> 0 <= ret < len -> ret <> to_int len.
Proof.
  unfold to_int, is_uint, UINT_MOD. intros Hl Hr.
  destruct (Z_lt_ge_dec len (2 ^ 31)) as [Hlt | Hge].
  - rewrite Z.mod_small by lia. lia.
  - replace (len + 2 ^ 31) with (len - 2 ^ 31 + 1 * 2 ^ 32) by lia.
    rewrite Z.mod_add by lia. rewrite Z.mod_small by lia. lia.
Qed.

(** X1. A short transfer of a single request: when the call moved [ret]
    bytes of a request of [len] bytes, [0 <= ret < len < 2^32],
    [fio_io_end] completes the request with [resid + ret = len] and
    error 0, reports nothing, and writes to no other field and no other
    request. *)
Theorem fio_io_end_short_conserves :
  forall (m : machine) (p : ptr) (u : io_u) (ret : Z),
    heap m !! p = Some u ->
    0 <= ret < xfer_buflen u -> xfer_buflen u < 2 ^ 32 ->
    exists u',
      fio_io_end m p ret
      = Some (FIO_Q_COMPLETED, with_heap m (<[p := u']> (heap m)))
      /\ resid u' + ret = xfer_buflen u
      /\ error u' = 0
      /\ same_request u u'.
Proof.
  intros m p u ret Hp Hret Hlen.
  exists (resolved u (xfer_buflen u - ret)).
  split; [| split; [simpl; lia | split; [reflexivity | repeat split]]].
  rewrite (fio_io_end_short_eq m p u ret Hp) by
    (try lia; apply to_int_uint_nonneg; unfold is_uint, UINT_MOD; lia).
  rewrite (to_ulong_id (xfer_buflen u - ret))
    by (unfold is_ulong, ULONG_MOD; lia).
  rewrite (to_uint_id (xfer_buflen u - ret))
    by (unfold is_uint, UINT_MOD; lia).
  reflexivity.
Qed.

(** X2. A failed call of a single request: when the call returned a
    negative value and left the code [e] in [errno] ([0 < e < 2^31],
    request length below 2^31), [fio_io_end] writes [e] to the error
    field, leaves the residual as it was, and reports [(e, "xfer")]. *)
Theorem fio_io_end_failure_reports :
  forall (m : machine) (p : ptr) (u : io_u) (ret : Z),
    heap m !! p = Some u ->
    ret < 0 -> 0 <= xfer_buflen u < 2 ^ 31 -> 0 < errno m < 2 ^ 31 ->
    fio_io_end m p ret
    = Some (FIO_Q_COMPLETED,
            td_verror
              (with_heap m (<[p := set_error u (errno m)]> (heap m)))
              (errno m) "xfer").
Proof.
  intros m p u ret Hp Hret Hlen He.
  rewrite (fio_io_end_fail_eq m p u ret Hp Hret)
    by (rewrite to_int_id; lia).
  rewrite (to_uint_id (errno m)) by (unfold is_uint, UINT_MOD; lia).
  simpl. destruct (Z.eqb_spec (errno m) 0) as [| _]; [lia | reflexivity].
Qed.

(** X3. A full transfer of a single request (the call returned the
    request's length, below 2^31): [fio_io_end] writes nothing to the
    request, so a residual or an error code left in it from before
    stays; such a left-over error code is what gets reported. *)
Theorem fio_io_end_full_keeps :
  forall (m : machine) (p : ptr) (u : io_u),
    heap m !! p = Some u -> 0 <= xfer_buflen u < 2 ^ 31 ->
    exists m',
      fio_io_end m p (xfer_buflen u) = Some (FIO_Q_COMPLETED, m')
      /\ heap m' = heap m
      /\ sd m' = sd m
      /\ verrors m'
         = verrors m
           ++ (if error u =? 0 then [] else [(error u, "xfer"%string)]).
Proof.
  intros m p u Hp Hlen.
  rewrite (fio_io_end_full_eq m p u (xfer_buflen u) Hp)
    by (rewrite to_int_id; lia).
  destruct (error u =? 0); eexists; (split; [reflexivity |]); simpl;
    repeat split. symmetry. apply app_nil_r.
Qed.

(** ** Commit, poll and fetch *)

Lemma batch_first m u0 us0 :
  batch m (u0 :: us0) ->
  exists p0, io_us (sd m) !! 0%nat = Some p0 /\ heap m !! p0 = Some u0.
Proof.
  intros [Hq Hpt]. unfold batch_ptrs in Hpt. rewrite Hq in Hpt.
  destruct (io_us (sd m)) as [| p0 l].
  - rewrite take_nil in Hpt. inversion Hpt.
  - replace (Z.to_nat (Z.of_nat (length (u0 :: us0))))
      with (S (length us0)) in Hpt by (simpl; lia).
    simpl in Hpt. inversion Hpt; subst. eauto.
Qed.

Lemma fio_vsyncio_commit_transfer m u0 us0 ls xf :
  batch m (u0 :: us0) -> last_file (sd m) <> NULL -> sr_ret ls <> -1 ->
  fio_vsyncio_commit m ls xf
  = fio_vsyncio_end
      (do_syscall
         (do_syscall m (SysLseek (last_file (sd m)) (offset u0)) ls)
         (vectored_call (sd m)) xf)
      (sr_ret xf).
Proof.
  intros Hb Hf Hls. destruct (batch_first _ _ _ Hb) as (p0 & Hp0 & Hu0).
  destruct Hb as [Hq _]. unfold fio_vsyncio_commit.
  destruct (Z.eqb_spec (queued (sd m)) 0) as [Hz | _];
    [simpl in Hq; lia |].
  destruct (N.eqb_spec (last_file (sd m)) NULL) as [| _]; [contradiction |].
  rewrite Hp0. simpl. rewrite Hu0. simpl.
  destruct (Z.eqb_spec (sr_ret ls) (-1)) as [| _]; [contradiction |].
  unfold vectored_call, batch_iovecs.
  destruct (last_ddir (sd m)); reflexivity.
Qed.

(** X4. A commit whose transfer moves exactly the cumulative queued
    bytes returns 0 after one [lseek] to the first request's offset and
    one [readv] (read batch) or [writev] (otherwise) over the
    descriptors of the batch; it writes nothing to the requests, so the
    residual and error fields keep whatever they held, and it reports
    nothing. *)
Theorem commit_full_transfer_writes_nothing :
  forall (m : machine) (u0 : io_u) (us0 : list io_u) (ls xf : sysres),
    batch m (u0 :: us0) -> last_file (sd m) <> NULL ->
    sr_ret ls <> -1 ->
    is_ulong (queued_bytes (sd m)) -> sr_ret xf = queued_bytes (sd m) ->
    exists m',
      fio_vsyncio_commit m ls xf = Some (0, m')
      /\ heap m' = heap m
      /\ sd m' = sd m
      /\ verrors m' = verrors m
      /\ trace m'
         = trace m
           ++ [SysLseek (last_file (sd m)) (offset u0);
               vectored_call (sd m)].
Proof.
  intros m u0 us0 ls xf Hb Hf Hls Hqb Hxf.
  rewrite (fio_vsyncio_commit_transfer m u0 us0 ls xf Hb Hf Hls).
  unfold fio_vsyncio_end. simpl.
  rewrite Hxf, (to_ulong_id _ Hqb), Z.eqb_refl.
  eexists. split; [reflexivity |]. simpl.
  repeat split. rewrite <- app_assoc. reflexivity.
Qed.

Lemma resolve_nonneg err ps :
  forall bytes h,
    Forall (fun p => is_Some (h !! p)) ps ->
    (forall p u, h !! p = Some u -> 0 <= xfer_buflen u) ->
    0 <= bytes < 2 ^ 63 ->
    exists b' h',
      resolve err ps bytes h = Some (b', h') /\ 0 <= b' <= bytes.
Proof.
  induction ps as [| p ps IH]; simpl; intros bytes h Hall Hlen Hb.
  - exists bytes, h. split; [reflexivity | lia].
  - inversion Hall as [| ? ? [u Hp] Hall']; subst. rewrite Hp. simpl.
    destruct (Z.eqb_spec bytes (-1)) as [| _]; [lia |].
    pose proof (Hlen p u Hp) as Hu.
    set (this_io :=
           if xfer_buflen u <? to_uint bytes then to_uint (xfer_buflen u)
           else to_uint bytes).
    assert (Hthis : 0 <= this_io <= bytes).
    { pose proof (to_uint_range bytes) as Hr.
      assert (to_uint bytes <= bytes)
        by (unfold to_uint, UINT_MOD; apply Z.mod_le; lia).
      unfold this_io, is_uint, UINT_MOD in *.
      destruct (Z.ltb_spec (xfer_buflen u) (to_uint bytes)).
      - rewrite to_uint_id by (unfold is_uint, UINT_MOD; lia). lia.
      - lia. }
    rewrite (to_ssize_id (bytes - this_io)) by lia.
    match goal with |- context [resolve err ps _ (<[p := ?v]> h)] =>
      destruct (IH (bytes - this_io) (<[p := v]> h)) as (b' & h' & Hr & Hb')
    end.
    + eapply Forall_impl; [exact Hall' |]. intros q [w Hq].
      destruct (decide (p = q)) as [-> | Hne].
      * rewrite lookup_insert_eq. eauto.
      * rewrite lookup_insert_ne by exact Hne. eauto.
    + intros q w Hq. destruct (decide (p = q)) as [-> | Hne].
      * rewrite lookup_insert_eq in Hq. inversion Hq; subst. exact Hu.
      * rewrite lookup_insert_ne in Hq by exact Hne. eapply Hlen. exact Hq.
    + lia.
    + exists b', h'. split; [exact Hr | lia].
Qed.

(** X5. A transfer count that is not negative is never an error: for
    every batch of requests (lengths not negative) and every count
    [0 <= bytes < 2^63] the transfer returns, short, full or longer, the
    commit returns 0 and reports nothing; the requests keep direction,
    file, offset, buffer and length. *)
Theorem nonnegative_transfer_is_success :
  forall (m : machine) (u0 : io_u) (us0 : list io_u) (ls xf : sysres),
    batch m (u0 :: us0) -> last_file (sd m) <> NULL ->
    (forall p u, heap m !! p = Some u -> 0 <= xfer_buflen u) ->
    sr_ret ls <> -1 -> 0 <= sr_ret xf < 2 ^ 63 ->
    exists m',
      fio_vsyncio_commit m ls xf = Some (0, m')
      /\ verrors m' = verrors m
      /\ sd m' = sd m
      /\ heap_keeps (heap m) (heap m').
Proof.
  intros m u0 us0 ls xf Hb Hf Hlen Hls Hxf.
  rewrite (fio_vsyncio_commit_transfer m u0 us0 ls xf Hb Hf Hls).
  set (m2 := do_syscall _ _ xf).
  assert (Hb2 : batch m2 (u0 :: us0)) by exact Hb.
  unfold fio_vsyncio_end.
  destruct (to_ulong (sr_ret xf) =? queued_bytes (sd m2)).
  { exists m2. repeat split. apply heap_keeps_refl. }
  rewrite (vsyncio_end_loop_batch m2 (u0 :: us0)) by exact Hb2.
  destruct (resolve_nonneg (errno m2) (batch_ptrs (sd m2)) (sr_ret xf)
              (heap m2)) as (b' & h' & Hr & Hb').
  { eapply Forall_points_to_is_Some. apply Hb2. }
  { exact Hlen. }
  { exact Hxf. }
  rewrite Hr. simpl.
  destruct (Z.eqb_spec b' (-1)) as [| _]; [lia |].
  eexists. split; [reflexivity |]. simpl. repeat split.
  eapply resolve_keeps. exact Hr.
Qed.

Lemma vsyncio_end_loop_frame s err n :
  forall i bytes h b h' p,
    vsyncio_end_loop s err n i bytes h = Some (b, h') ->
    0 <= i ->
    (forall k, (Z.to_nat i <= k < Z.to_nat i + n)%nat ->
               io_us s !! k <> Some p) ->
    h' !! p = h !! p.
Proof.
  induction n as [| n IH]; simpl; intros i bytes h b h' p H Hi Hnot.
  - inversion H; subst. reflexivity.
  - destruct (io_us s !! Z.to_nat i) as [q |] eqn:Hq; simpl in H;
      [| discriminate].
    destruct (h !! q) as [u |] eqn:Hu; simpl in H; [| discriminate].
    assert (Hne : q <> p).
    { intros ->. apply (Hnot (Z.to_nat i)); [lia | exact Hq]. }
    assert (Hnot' : forall k,
      (Z.to_nat (i + 1) <= k < Z.to_nat (i + 1) + n)%nat ->
      io_us s !! k <> Some p)
      by (intros k Hk; apply Hnot; lia).
    destruct (bytes =? -1);
      rewrite (IH _ _ _ _ _ _ H ltac:(lia) Hnot');
      apply lookup_insert_ne; exact Hne.
Qed.

Lemma fio_vsyncio_end_frame m bytes r m' p :
  fio_vsyncio_end m bytes = Some (r, m') ->
  p ∉ batch_ptrs (sd m) -> heap m' !! p = heap m !! p.
Proof.
  unfold fio_vsyncio_end. intros H Hp.
  destruct (to_ulong bytes =? queued_bytes (sd m)).
  { inversion H; subst. reflexivity. }
  destruct (vsyncio_end_loop _ _ _ _ _ _) as [[b h'] |] eqn:Hl;
    simpl in H; [| discriminate].
  assert (Hh : h' !! p = heap m !! p).
  { eapply vsyncio_end_loop_frame; [exact Hl | lia |].
    intros k Hk Hk'. apply Hp. unfold batch_ptrs.
    apply list_elem_of_lookup. exists k.
    rewrite lookup_take_lt by lia. exact Hk'. }
  destruct (b =? -1); inversion H; subst; exact Hh.
Qed.

(** X6. A commit writes only to queued requests: whatever the outcome,
    every object of the store that is not among the first [queued]
    slots of the batch is after the commit exactly what it was
    before. *)
Theorem commit_writes_only_queued :
  forall (m : machine) (ls xf : sysres) (r : Z) (m' : machine) (p : ptr),
    fio_vsyncio_commit m ls xf = Some (r, m') ->
    p ∉ batch_ptrs (sd m) ->
    heap m' !! p = heap m !! p.
Proof.
  intros m ls xf r m' p H Hp. unfold fio_vsyncio_commit in H.
  destruct (queued (sd m) =? 0); [inversion H; subst; reflexivity |].
  destruct (last_file (sd m) =? NULL)%N; [discriminate |].
  destruct (io_us (sd m) !! 0%nat) as [p0 |]; simpl in H; [| discriminate].
  destruct (heap m !! p0) as [u0 |]; simpl in H; [| discriminate].
  destruct (sr_ret ls =? -1); [inversion H; subst; reflexivity |].
  apply (fio_vsyncio_end_frame _ _ _ _ p) in H; [exact H | exact Hp].
Qed.

Lemma fio_vsyncio_end_trace m bytes r m' :
  fio_vsyncio_end m bytes = Some (r, m') -> trace m' = trace m.
Proof.
  unfold fio_vsyncio_end. intros H.
  destruct (to_ulong bytes =? queued_bytes (sd m)).
  { inversion H; subst. reflexivity. }
  destruct (vsyncio_end_loop _ _ _ _ _ _) as [[b h'] |];
    simpl in H; [| discriminate].
  destruct (b =? -1); inversion H; subst; reflexivity.
Qed.

(** X7. The system calls of a commit: none for an empty batch (the
    machine is returned as it is, with 0); otherwise one [lseek] on the
    tracked file to the offset of the request in slot 0, followed, when
    and only when that [lseek] did not fail, by one vectored call over
    the batch's descriptors.  No other call is issued, whatever the
    outcome of the transfer. *)
Theorem commit_calls :
  forall (m : machine) (ls xf : sysres) (r : Z) (m' : machine),
    fio_vsyncio_commit m ls xf = Some (r, m') ->
    (queued (sd m) = 0 -> r = 0 /\ m' = m)
    /\ (queued (sd m) <> 0 ->
        exists p0 u0,
          io_us (sd m) !! 0%nat = Some p0 /\ heap m !! p0 = Some u0
          /\ trace m'
             = trace m
               ++ SysLseek (last_file (sd m)) (offset u0)
                  :: (if sr_ret ls =? -1 then []
                      else [vectored_call (sd m)])).
Proof.
  intros m ls xf r m' H. unfold fio_vsyncio_commit in H.
  destruct (Z.eqb_spec (queued (sd m)) 0) as [Hq | Hq].
  { inversion H; subst. split; [auto | contradiction]. }
  split; [contradiction |]. intros _.
  destruct (last_file (sd m) =? NULL)%N; [discriminate |].
  destruct (io_us (sd m) !! 0%nat) as [p0 |] eqn:Hp0; simpl in H;
    [| discriminate].
  destruct (heap m !! p0) as [u0 |] eqn:Hu0; simpl in H; [| discriminate].
  exists p0, u0. split; [reflexivity |]. split; [exact Hu0 |].
  destruct (sr_ret ls =? -1).
  - inversion H; subst. reflexivity.
  - apply fio_vsyncio_end_trace in H. rewrite H. simpl.
    rewrite <- app_assoc. unfold vectored_call, batch_iovecs.
    destruct (last_ddir (sd m)); reflexivity.
Qed.

(** X8. Requests that are polled before they are committed are never
    transferred: a poll with [min >= 1] empties the batch, and the
    commit that follows is the empty commit, which returns 0 and issues
    no system call. *)
Theorem poll_before_commit_drops_batch :
  forall (m : machine) (min max : Z) (ls xf : sysres),
    1 <= min ->
    let m1 := snd (fio_vsyncio_getevents m min max) in
    fst (fio_vsyncio_getevents m min max) = to_int (queued (sd m))
    /\ heap m1 = heap m /\ trace m1 = trace m
    /\ fio_vsyncio_commit m1 ls xf = Some (0, m1).
Proof.
  intros m min max ls xf Hmin. unfold fio_vsyncio_getevents.
  destruct (Z.eqb_spec min 0) as [| _]; [lia |]. simpl.
  repeat split.
Qed.

(** X9. Fetching after commit and poll: after a commit of the batch
    [us] and a poll, [fio_vsyncio_event] at an index below the number of
    requests of [us] returns the request queued at that position, and
    the store holds that request with the direction, file, offset,
    buffer and length it was queued with. *)
Theorem event_fetches_committed_requests :
  forall (m : machine) (us : list io_u) (ls xf : sysres) (r : Z)
         (m' : machine) (min max : Z) (i : nat) (u : io_u),
    batch m us -> fio_vsyncio_commit m ls xf = Some (r, m') ->
    us !! i = Some u ->
    exists p u',
      batch_ptrs (sd m) !! i = Some p
      /\ fio_vsyncio_event (snd (fio_vsyncio_getevents m' min max))
           (Z.of_nat i) = Some p
      /\ heap (snd (fio_vsyncio_getevents m' min max)) !! p = Some u'
      /\ same_request u u'.
Proof.
  intros m us ls xf r m' min max i u [Hq Hpt] Hc Hu.
  apply fio_vsyncio_commit_keeps in Hc. destruct Hc as (Hsd & _ & Hk).
  destruct (Forall2_lookup_r _ _ _ _ _ Hpt Hu) as (p & Hp & Hpu).
  specialize (Hk p). rewrite Hpu in Hk.
  inversion Hk as [u1 u' Hs Hu1 Hu' |]; subst.
  exists p, u'. split; [exact Hp |].
  assert (Hslot : io_us (sd m) !! i = Some p).
  { unfold batch_ptrs in Hp. apply lookup_take_Some in Hp. tauto. }
  unfold fio_vsyncio_getevents, fio_vsyncio_event.
  destruct (min =? 0); simpl; rewrite Hsd;
    (destruct (Z.ltb_spec (Z.of_nat i) 0); [lia |]);
    rewrite Nat2Z.id; auto.
Qed.

(** ** Submission, step by step *)

Section Queueing.

Variable fio_ro_check : machine -> io_u -> bool.

Lemma take_S_insert {A} (l : list A) (n : nat) (x : A) :
  (n < length l)%nat -> take (S n) (<[n := x]> l) = take n l ++ [x].
Proof.
  intros Hn. rewrite (take_S_r _ _ x) by (apply list_lookup_insert_eq; exact Hn).
  rewrite take_insert_ge by lia. reflexivity.
Qed.

(** The effect of [fio_vsyncio_set_iov] at the slot after the batch. *)
Lemma set_iov_at_count depth m p u :
  depth_inv depth m -> queued (sd m) < depth -> queued (sd m) < 2 ^ 31 ->
  exists s',
    fio_vsyncio_set_iov (sd m) p u (to_int (queued (sd m))) = Some s'
    /\ queued s' = queued (sd m) + 1
    /\ batch_ptrs s' = batch_ptrs (sd m) ++ [p]
    /\ batch_iovecs s' = batch_iovecs (sd m) ++ [iovec_of u]
    /\ last_offset s' = to_ulong (offset u + xfer_buflen u)
    /\ last_file s' = file u /\ last_ddir s' = ddir u
    /\ queued_bytes s' = to_ulong (queued_bytes (sd m) + xfer_buflen u)
    /\ length (io_us s') = length (io_us (sd m))
    /\ length (iovecs s') = length (iovecs (sd m)).
Proof.
  intros [H1 H2 H3 H4 H5] Hlt Hd.
  rewrite (to_int_id (queued (sd m))) by lia.
  unfold fio_vsyncio_set_iov.
  destruct (Z.ltb_spec (queued (sd m)) 0); [lia |].
  destruct (Z.leb_spec (Z.of_nat (length (io_us (sd m)))) (queued (sd m)));
    [lia |].
  destruct (Z.leb_spec (Z.of_nat (length (iovecs (sd m)))) (queued (sd m)));
    [lia |].
  simpl. eexists. split; [reflexivity |]. simpl.
  assert (Hq1 : to_uint (queued (sd m) + 1) = queued (sd m) + 1)
    by (apply to_uint_id; unfold is_uint, UINT_MOD; lia).
  rewrite Hq1. unfold batch_ptrs, batch_iovecs. simpl. rewrite ?Hq1.
  replace (Z.to_nat (queued (sd m) + 1))
    with (S (Z.to_nat (queued (sd m)))) by lia.
  rewrite !take_S_insert by lia. rewrite !length_insert.
  repeat split.
Qed.

(** A request that passes the mergeability test below the depth limit
    is appended. *)
Lemma queue_append_step depth m p u fs pre :
  depth_inv depth m -> depth <= 2 ^ 31 ->
  batch m pre -> queued (sd m) < depth ->
  heap m !! p = Some u -> fio_ro_check m u = true ->
  fio_vsyncio_append (sd m) u = true ->
  exists m',
    fio_vsyncio_queue fio_ro_check m p fs = Some (FIO_Q_QUEUED, m')
    /\ depth_inv depth m' /\ batch m' (pre ++ [u])
    /\ batch_ptrs (sd m') = batch_ptrs (sd m) ++ [p]
    /\ batch_iovecs (sd m') = batch_iovecs (sd m) ++ [iovec_of u]
    /\ heap m' = heap m /\ trace m' = trace m
    /\ last_offset (sd m') = to_ulong (offset u + xfer_buflen u)
    /\ last_file (sd m') = file u /\ last_ddir (sd m') = ddir u
    /\ queued_bytes (sd m')
       = to_ulong (queued_bytes (sd m) + xfer_buflen u).
Proof.
  intros Hdi Hd [Hq Hpt] Hlt Hp Hc Ha.
  destruct (set_iov_at_count depth m p u Hdi Hlt ltac:(lia))
    as (s' & Hs & Hq' & Hps & Hiov & Hlo & Hlf & Hld & Hqb & Hl1 & Hl2).
  exists (with_sd m s'). unfold fio_vsyncio_queue.
  rewrite Hp. simpl. rewrite Hc, Ha. simpl.
  destruct Hdi as [H1 H2 H3 H4 H5].
  destruct (Z.eqb_spec (queued (sd m)) (iodepth m)) as [| _]; [lia |].
  rewrite Hs. simpl. split; [reflexivity |].
  repeat split; simpl; try assumption; try lia; try congruence.
  - unfold is_uint, UINT_MOD in *. lia.
  - rewrite Hq', length_app, Hq. simpl. lia.
  - rewrite Hps. apply Forall2_app; [exact Hpt |].
    repeat constructor. exact Hp.
Qed.

(** A read or write that fails the mergeability test opens a fresh
    batch when none is pending. *)
Lemma queue_fresh_step depth m p u fs :
  depth_inv depth m -> 1 <= depth ->
  queued (sd m) = 0 ->
  heap m !! p = Some u -> fio_ro_check m u = true ->
  fio_vsyncio_append (sd m) u = false -> ddir u <> DDIR_SYNC ->
  exists m',
    fio_vsyncio_queue fio_ro_check m p fs = Some (FIO_Q_QUEUED, m')
    /\ depth_inv depth m' /\ batch m' [u]
    /\ batch_ptrs (sd m') = [p]
    /\ batch_iovecs (sd m') = [iovec_of u]
    /\ heap m' = heap m /\ trace m' = trace m
    /\ last_offset (sd m') = to_ulong (offset u + xfer_buflen u)
    /\ last_file (sd m') = file u /\ last_ddir (sd m') = ddir u
    /\ queued_bytes (sd m') = to_ulong (xfer_buflen u).
Proof.
  intros [H1 H2 H3 H4 H5] Hd Hq Hp Hc Ha Hdd.
  unfold fio_vsyncio_queue. rewrite Hp. simpl. rewrite Hc, Ha. simpl.
  destruct (Z.eqb_spec (queued (sd m)) 0) as [_ | ]; [| contradiction].
  simpl. unfold fio_vsyncio_set_iov. simpl.
  destruct (io_us (sd m)) as [| x l] eqn:Hl; [simpl in H2; lia |].
  destruct (iovecs (sd m)) as [| y k] eqn:Hk; [simpl in H3; lia |].
  simpl.
  assert (Hgoal : forall m1,
    m1 = with_sd m
           {| iovecs := iovec_of u :: k; io_us := p :: l;
              queued := to_uint (0 + 1);
              queued_bytes := to_ulong (0 + xfer_buflen u);
              last_offset := to_ulong (offset u + xfer_buflen u);
              last_file := file u; last_ddir := ddir u |} ->
    depth_inv depth m1 /\ batch m1 [u] /\ batch_ptrs (sd m1) = [p]
    /\ batch_iovecs (sd m1) = [iovec_of u]
    /\ heap m1 = heap m /\ trace m1 = trace m
    /\ last_offset (sd m1) = to_ulong (offset u + xfer_buflen u)
    /\ last_file (sd m1) = file u /\ last_ddir (sd m1) = ddir u
    /\ queued_bytes (sd m1) = to_ulong (xfer_buflen u)).
  { intros m1 ->. split; [| split].
    - constructor; simpl; try assumption.
      + change (to_uint (0 + 1)) with 1. lia.
      + apply to_uint_range.
    - split; [reflexivity |]. unfold batch_ptrs. simpl.
      change (Z.to_nat (to_uint (0 + 1))) with 1%nat. simpl.
      rewrite take_0. repeat constructor. exact Hp.
    - unfold batch_ptrs, batch_iovecs. simpl.
      change (Z.to_nat (to_uint (0 + 1))) with 1%nat. simpl.
      rewrite !take_0. repeat split. }
  destruct (ddir u) eqn:Hddir; try congruence;
    (eexists; split; [reflexivity |]); apply Hgoal;
    unfold iovec_of; rewrite ?Hddir; reflexivity.
Qed.

(** X10. Queueing a read or a write is bookkeeping only: whatever the
    answer, the store of requests, [errno], the reports and the system
    calls issued are after the call what they were before; the answer is
    never "completed"; and with the answer "busy" the whole machine is
    unchanged. *)
Theorem queue_is_bookkeeping :
  forall (m : machine) (p : ptr) (u : io_u) (fs : sysres) (q : fio_q)
         (m' : machine),
    heap m !! p = Some u -> ddir u <> DDIR_SYNC ->
    fio_vsyncio_queue fio_ro_check m p fs = Some (q, m') ->
    heap m' = heap m /\ trace m' = trace m /\ errno m' = errno m
    /\ verrors m' = verrors m /\ iodepth m' = iodepth m
    /\ q <> FIO_Q_COMPLETED
    /\ (q = FIO_Q_BUSY -> m' = m).
Proof.
  intros m p u fs q m' Hp Hd H. unfold fio_vsyncio_queue in H.
  rewrite Hp in H. simpl in H.
  destruct (fio_ro_check m u); simpl in H; [| discriminate].
  destruct (fio_vsyncio_append (sd m) u); simpl in H.
  - destruct (queued (sd m) =? iodepth m).
    + inversion H; subst. repeat split; discriminate.
    + destruct (fio_vsyncio_set_iov _ _ _ _) as [s' |]; simpl in H;
        [| discriminate].
      inversion H; subst. repeat split; discriminate.
  - destruct (queued (sd m) =? 0); simpl in H.
    + destruct (ddir u); try congruence;
        (destruct (fio_vsyncio_set_iov _ _ _ _) as [s' |]; simpl in H;
         [| discriminate]);
        inversion H; subst; repeat split; discriminate.
    + inversion H; subst. repeat split; discriminate.
Qed.

(** X11. A sync barrier submitted while no request is queued is carried
    out at once: one [fsync] on its file, the answer "completed", and
    the engine data untouched, the tracked offset, file and direction
    included; only the barrier's own object may change.  When the
    [fsync] fails with code [e], the barrier's error field becomes [e]
    and [(e, "xfer")] is reported. *)
Theorem sync_barrier_immediate :
  forall (m : machine) (p : ptr) (u : io_u) (fs : sysres),
    heap m !! p = Some u -> fio_ro_check m u = true ->
    ddir u = DDIR_SYNC -> queued (sd m) = 0 -> file u <> NULL ->
    exists m',
      fio_vsyncio_queue fio_ro_check m p fs = Some (FIO_Q_COMPLETED, m')
      /\ sd m' = sd m
      /\ trace m' = trace m ++ [SysFsync (file u)]
      /\ heap_keeps (heap m) (heap m')
      /\ (forall p', p' <> p -> heap m' !! p' = heap m !! p')
      /\ (sr_ret fs = -1 -> 0 < sr_errno fs < 2 ^ 31 ->
          0 <= xfer_buflen u < 2 ^ 31 ->
          heap m' !! p = Some (set_error u (sr_errno fs))
          /\ verrors m' = verrors m ++ [(sr_errno fs, "xfer"%string)]).
Proof.
  intros m p u fs Hp Hc Hd Hq Hf.
  assert (Ha : fio_vsyncio_append (sd m) u = false)
    by (unfold fio_vsyncio_append; rewrite Hd; reflexivity).
  set (m1 := do_syscall m (SysFsync (file u)) fs).
  assert (Hq1 : fio_vsyncio_queue fio_ro_check m p fs
                = fio_io_end m1 p (to_int (sr_ret fs))).
  { unfold fio_vsyncio_queue. rewrite Hp. simpl. rewrite Hc, Ha. simpl.
    rewrite Hq. simpl. rewrite Hd.
    destruct (N.eqb_spec (file u) NULL) as [| _]; [contradiction |].
    reflexivity. }
  rewrite Hq1.
  assert (Hp1 : heap m1 !! p = Some u) by exact Hp.
  destruct (fio_io_end m1 p (to_int (sr_ret fs))) as [[q m'] |] eqn:He.
  2:{ unfold fio_io_end in He. rewrite Hp1 in He. simpl in He.
      repeat match type of He with
             | context [if ?c then _ else _] => destruct c
             end; discriminate. }
  assert (Hcompl : q = FIO_Q_COMPLETED).
  { unfold fio_io_end in He. rewrite Hp1 in He. simpl in He.
    repeat match type of He with
           | context [if ?c then _ else _] => destruct c
           end; inversion He; reflexivity. }
  subst q. exists m'. split; [reflexivity |].
  pose proof (fio_io_end_keeps _ _ _ _ _ He) as (Hsd & _ & Hk).
  assert (Htr : trace m' = trace m1).
  { unfold fio_io_end in He. rewrite Hp1 in He. simpl in He.
    repeat match type of He with
           | context [if ?c then _ else _] => destruct c
           end; inversion He; reflexivity. }
  assert (Hfr : forall p', p' <> p -> heap m' !! p' = heap m1 !! p').
  { intros p' Hne. unfold fio_io_end in He. rewrite Hp1 in He.
    simpl in He.
    repeat match type of He with
           | context [if ?c then _ else _] => destruct c
           end; inversion He; subst; simpl;
      try reflexivity; apply lookup_insert_ne; congruence. }
  split; [exact Hsd |]. split; [exact Htr |]. split; [exact Hk |].
  split; [exact Hfr |].
  intros Hret He1 Hlen.
  assert (Herrno : errno m1 = sr_errno fs)
    by (simpl; rewrite Hret; reflexivity).
  rewrite Hret in He. change (to_int (-1)) with (-1) in He.
  rewrite (fio_io_end_fail_eq m1 p u (-1) Hp1) in He
    by (try lia; rewrite to_int_id; lia).
  rewrite Herrno, (to_uint_id (sr_errno fs)) in He
    by (unfold is_uint, UINT_MOD; lia).
  simpl in He.
  destruct (Z.eqb_spec (sr_errno fs) 0) as [| _]; [lia |].
  inversion He; subst. simpl. split; [apply lookup_insert_eq | reflexivity].
Qed.

Lemma batch_empty m : queued (sd m) = 0 -> batch m [].
Proof.
  intros Hq. split; [exact Hq |]. unfold batch_ptrs. rewrite Hq.
  constructor.
Qed.

Lemma queue_on_empty depth m p u fs :
  depth_inv depth m -> 1 <= depth <= 2 ^ 31 -> queued (sd m) = 0 ->
  heap m !! p = Some u -> fio_ro_check m u = true ->
  ddir u <> DDIR_SYNC ->
  exists m',
    fio_vsyncio_queue fio_ro_check m p fs = Some (FIO_Q_QUEUED, m')
    /\ depth_inv depth m' /\ batch m' [u]
    /\ batch_ptrs (sd m') = [p]
    /\ batch_iovecs (sd m') = [iovec_of u]
    /\ heap m' = heap m /\ trace m' = trace m
    /\ last_offset (sd m') = to_ulong (offset u + xfer_buflen u)
    /\ last_file (sd m') = file u /\ last_ddir (sd m') = ddir u
    /\ queued_bytes (sd m')
       = to_ulong ((if fio_vsyncio_append (sd m) u
                    then queued_bytes (sd m) else 0) + xfer_buflen u).
Proof.
  intros Hdi Hd Hq Hp Hc Hdd.
  destruct (fio_vsyncio_append (sd m) u) eqn:Ha.
  - destruct (queue_append_step depth m p u fs [] Hdi) as (m' & H);
      try assumption; try lia; [apply batch_empty; exact Hq |].
    assert (Hps : batch_ptrs (sd m) = [])
      by (unfold batch_ptrs; rewrite Hq; reflexivity).
    assert (Hiv : batch_iovecs (sd m) = [])
      by (unfold batch_iovecs; rewrite Hq; reflexivity).
    rewrite Hps, Hiv in H. simpl in H. exists m'. exact H.
  - destruct (queue_fresh_step depth m p u fs Hdi) as (m' & H);
      try assumption; try lia.
    exists m'. exact H.
Qed.

(** X12. A batch without queued requests accepts every read or write:
    the answer is "queued", the request is alone in the batch, its
    descriptor is in slot 0, and the tracked end offset, file and
    direction are the request's.  The cumulative bytes are the request's
    length when the request failed the mergeability test, and are added
    to the count already there when it passed. *)
Theorem empty_batch_accepts_request :
  forall (depth : Z) (m : machine) (p : ptr) (u : io_u) (fs : sysres),
    depth_inv depth m -> 1 <= depth <= 2 ^ 31 -> queued (sd m) = 0 ->
    heap m !! p = Some u -> fio_ro_check m u = true ->
    ddir u <> DDIR_SYNC ->
    exists m',
      fio_vsyncio_queue fio_ro_check m p fs = Some (FIO_Q_QUEUED, m')
      /\ batch m' [u]
      /\ batch_ptrs (sd m') = [p]
      /\ batch_iovecs (sd m') = [iovec_of u]
      /\ heap m' = heap m
      /\ last_offset (sd m') = to_ulong (offset u + xfer_buflen u)
      /\ last_file (sd m') = file u /\ last_ddir (sd m') = ddir u
      /\ queued_bytes (sd m')
         = to_ulong ((if fio_vsyncio_append (sd m) u
                      then queued_bytes (sd m) else 0) + xfer_buflen u).
Proof.
  intros depth m p u fs Hdi Hd Hq Hp Hc Hdd.
  destruct (queue_on_empty depth m p u fs Hdi Hd Hq Hp Hc Hdd)
    as (m' & H1 & _ & H2 & H3 & H4 & H5 & _ & H6).
  exists m'. tauto.
Qed.

(** X13. The retry the code asks of its caller works: after any commit
    and a poll with [min >= 1], a read or write, in particular one that
    was answered "busy" before the commit, gets the answer "queued" and
    is alone in the new batch. *)
Theorem retry_after_busy :
  forall (depth : Z) (m : machine) (p : ptr) (u : io_u) (fs ls xf : sysres)
         (r : Z) (m1 : machine) (min max : Z),
    (forall m0 u0, fio_ro_check m0 u0 = true) ->
    depth_inv depth m -> 1 <= depth <= 2 ^ 31 ->
    heap m !! p = Some u -> ddir u <> DDIR_SYNC ->
    fio_vsyncio_commit m ls xf = Some (r, m1) -> 1 <= min ->
    exists m3,
      fio_vsyncio_queue fio_ro_check
        (snd (fio_vsyncio_getevents m1 min max)) p fs
      = Some (FIO_Q_QUEUED, m3)
      /\ queued (sd m3) = 1
      /\ batch_ptrs (sd m3) = [p].
Proof.
  intros depth m p u fs ls xf r m1 min max Hchk Hdi Hd Hp Hdd Hc Hmin.
  pose proof (fio_vsyncio_commit_keeps _ _ _ _ _ Hc) as (Hsd & Hio & Hk).
  specialize (Hk p). rewrite Hp in Hk.
  inversion Hk as [u0 u' Hs Hu0 Hu' |]; subst. symmetry in Hu'.
  set (m2 := snd (fio_vsyncio_getevents m1 min max)).
  assert (Hm2 : m2 = with_sd m1 (set_queued (sd m1) 0)).
  { unfold m2, fio_vsyncio_getevents.
    destruct (Z.eqb_spec min 0) as [| _]; [lia | reflexivity]. }
  assert (Hdi2 : depth_inv depth m2).
  { rewrite Hm2. destruct Hdi as [H1 H2 H3 H4 H5].
    constructor; simpl; rewrite ?Hsd, ?Hio; try assumption; [lia |].
    unfold is_uint, UINT_MOD. lia. }
  destruct (queue_on_empty depth m2 p u' fs Hdi2 Hd)
    as (m3 & Hq & _ & [Hq3 _] & Hps & _).
  - rewrite Hm2. reflexivity.
  - rewrite Hm2. exact Hu'.
  - apply Hchk.
  - destruct Hs as (Hdd' & _). congruence.
  - exists m3. split; [exact Hq |]. split; [exact Hq3 | exact Hps].
Qed.

Lemma to_ulong_add_l a b : to_ulong (to_ulong a + b) = to_ulong (a + b).
Proof. unfold to_ulong. apply Zplus_mod_idemp_l. Qed.

(** Requests that continue the batch are appended one after the other. *)
Lemma queue_each_append depth f d fs us :
  (forall m0 u0, fio_ro_check m0 u0 = true) ->
  depth <= 2 ^ 31 -> d <> DDIR_SYNC ->
  forall ps m pre e,
    depth_inv depth m -> batch m pre ->
    points_to (heap m) ps us -> contiguous_from f d e us ->
    last_offset (sd m) = e -> last_file (sd m) = f ->
    last_ddir (sd m) = d ->
    Forall (fun u => 0 <= xfer_buflen u) us ->
    0 <= e -> e + total_len us < ULONG_MOD ->
    Z.of_nat (length pre) + Z.of_nat (length us) <= depth ->
    is_ulong (queued_bytes (sd m)) ->
    exists m',
      queue_each fio_ro_check m ps fs
      = Some (replicate (length us) FIO_Q_QUEUED, m')
      /\ batch m' (pre ++ us)
      /\ batch_iovecs (sd m') = batch_iovecs (sd m) ++ (iovec_of <$> us)
      /\ heap m' = heap m /\ trace m' = trace m
      /\ last_offset (sd m') = e + total_len us
      /\ last_file (sd m') = f /\ last_ddir (sd m') = d
      /\ queued_bytes (sd m')
         = to_ulong (queued_bytes (sd m) + total_len us).
Proof.
  intros Hchk Hd Hsync.
  induction us as [| u us IH];
    intros ps m pre e Hdi Hb Hpt Hc Hlo Hlf Hld Hlen He Hwrap Hroom Hqr.
  - apply Forall2_nil_inv_r in Hpt. rewrite Hpt. exists m. simpl.
    rewrite !app_nil_r, !Z.add_0_r, (to_ulong_id _ Hqr).
    split; [reflexivity |]. split; [exact Hb |]. tauto.
  - apply Forall2_cons_inv_r in Hpt.
    destruct Hpt as (p & ps' & Hp & Hpt' & ->).
    destruct Hc as (Hf & Hdd & Ho & Hc).
    apply Forall_cons in Hlen. destruct Hlen as [Hu Hlen'].
    simpl in Hwrap, Hroom.
    assert (Htl : 0 <= total_len us).
    { clear -Hlen'. induction Hlen'; simpl; lia. }
    assert (Ha : fio_vsyncio_append (sd m) u = true).
    { unfold fio_vsyncio_append.
      rewrite Ho, Hlo, Hf, Hlf, Hdd, Hld, Z.eqb_refl, N.eqb_refl.
      destruct d; try reflexivity. congruence. }
    destruct Hb as [Hq Hbpt].
    destruct (queue_append_step depth m p u fs pre Hdi Hd)
      as (m1 & Hq1 & Hdi1 & Hb1 & _ & Hiov1 & Hh1 & Ht1 & Hlo1 & Hlf1
          & Hld1 & Hqb1);
      try assumption; try (split; assumption); try lia; [apply Hchk |].
    rewrite to_ulong_id in Hlo1 by (unfold is_ulong; lia).
    destruct (IH ps' m1 (pre ++ [u]) (offset u + xfer_buflen u))
      as (m' & Hq' & Hb' & Hiov' & Hh' & Ht' & Hlo' & Hlf' & Hld' & Hqb');
      try assumption; try congruence; try lia.
    + rewrite Hh1. exact Hpt'.
    + rewrite length_app. simpl. lia.
    + rewrite Hqb1. apply to_ulong_range.
    + exists m'. simpl. rewrite Hq1. simpl. rewrite Hq'. simpl.
      split; [reflexivity |].
      rewrite <- app_assoc in Hb'. simpl in Hb'.
      rewrite Hiov1, <- app_assoc in Hiov'. simpl in Hiov'.
      split; [exact Hb' |]. split; [exact Hiov' |].
      split; [congruence |]. split; [congruence |].
      split; [rewrite Hlo'; lia |].
      split; [exact Hlf' |]. split; [exact Hld' |].
      rewrite Hqb', Hqb1, to_ulong_add_l. f_equal. lia.
Qed.

(** X14. Requests of one file and one direction that follow one another
    without a gap, submitted in order to an engine with no request
    queued and with room for them, are all answered "queued".  They then
    form the batch, in order, with their descriptors; the tracked end
    offset is the first offset plus the sum of the lengths; and when the
    first of them failed the mergeability test the cumulative bytes are
    that sum.  No system call is issued and no request is written to. *)
Theorem contiguous_requests_all_queue :
  forall (depth : Z) (m : machine) (ps : list ptr) (us : list io_u)
         (f : ptr) (d : fio_ddir) (start : Z) (fs : sysres),
    (forall m0 u0, fio_ro_check m0 u0 = true) ->
    1 <= depth <= 2 ^ 31 -> depth_inv depth m -> queued (sd m) = 0 ->
    points_to (heap m) ps us ->
    d <> DDIR_SYNC -> contiguous_from f d start us ->
    Forall (fun u => 0 <= xfer_buflen u) us ->
    0 <= start -> start + total_len us < ULONG_MOD ->
    Z.of_nat (length us) <= depth ->
    exists m',
      queue_each fio_ro_check m ps fs
      = Some (replicate (length us) FIO_Q_QUEUED, m')
      /\ batch m' us
      /\ batch_iovecs (sd m') = iovec_of <$> us
      /\ heap m' = heap m /\ trace m' = trace m
      /\ (us <> [] ->
          last_offset (sd m') = start + total_len us
          /\ last_file (sd m') = f /\ last_ddir (sd m') = d)
      /\ (forall u0, head us = Some u0 ->
            fio_vsyncio_append (sd m) u0 = false ->
            queued_bytes (sd m') = total_len us).
Proof.
  intros depth m ps us f d start fs Hchk Hd Hdi Hq Hpt Hsync Hc Hlen
         Hstart Hwrap Hroom.
  destruct us as [| u us].
  { apply Forall2_nil_inv_r in Hpt. rewrite Hpt. exists m. simpl.
    split; [reflexivity |]. split; [apply batch_empty; exact Hq |].
    split; [unfold batch_iovecs; rewrite Hq; reflexivity |].
    split; [reflexivity |]. split; [reflexivity |].
    split; [congruence | discriminate]. }
  apply Forall2_cons_inv_r in Hpt.
  destruct Hpt as (p & ps' & Hp & Hpt' & ->).
  destruct Hc as (Hf & Hdd & Ho & Hc).
  apply Forall_cons in Hlen. destruct Hlen as [Hu Hlen'].
  simpl in Hwrap, Hroom.
  assert (Htl : 0 <= total_len us).
  { clear -Hlen'. induction Hlen'; simpl; lia. }
  destruct (queue_on_empty depth m p u fs Hdi Hd Hq Hp (Hchk m u))
    as (m1 & Hq1 & Hdi1 & Hb1 & _ & Hiov1 & Hh1 & Ht1 & Hlo1 & Hlf1
        & Hld1 & Hqb1); [congruence |].
  rewrite to_ulong_id in Hlo1 by (unfold is_ulong; lia).
  destruct (queue_each_append depth f d fs us Hchk
              ltac:(lia) Hsync ps' m1 [u]
              (start + xfer_buflen u))
    as (m' & Hq' & Hb' & Hiov' & Hh' & Ht' & Hlo' & Hlf' & Hld' & Hqb');
    try assumption; try congruence; try lia.
  - rewrite Hh1. exact Hpt'.
  - simpl. lia.
  - rewrite Hqb1. apply to_ulong_range.
  - exists m'. simpl. rewrite Hq1. simpl. rewrite Hq'. simpl.
    split; [reflexivity |]. simpl in Hb'.
    rewrite Hiov1 in Hiov'. simpl in Hiov'.
    split; [exact Hb' |]. split; [exact Hiov' |].
    split; [congruence |]. split; [congruence |].
    split; [intros _; split; [rewrite Hlo'; lia | split; assumption] |].
    intros u0 Hu0 Ha. inversion Hu0; subst u0.
    rewrite Ha in Hqb1. simpl in Hqb1.
    rewrite Hqb', Hqb1, to_ulong_add_l.
    apply to_ulong_id. unfold is_ulong. lia.
Qed.

(** ** Whole runs *)

(** X15. Over a whole run the engine neither adds nor removes a request
    and never changes the direction, file, offset, buffer or length of
    one: an address holds a request after the run exactly when it held
    one before, and the two differ at most in the residual and error
    fields. *)
Theorem run_preserves_requests :
  forall (m : machine) (ops : list op) (m' : machine),
    run fio_ro_check m ops = Some m' ->
    (forall p u, heap m !! p = Some u ->
       exists u', heap m' !! p = Some u' /\ same_request u u')
    /\ (forall p, heap m !! p = None -> heap m' !! p = None).
Proof.
  intros m ops m' Hrun.
  assert (Hk : heap_keeps (heap m) (heap m')).
  { revert m Hrun. induction ops as [| o ops IH]; simpl; intros m Hrun.
    - inversion Hrun; subst. apply heap_keeps_refl.
    - destruct (step fio_ro_check m o) as [m1 |] eqn:Hs; simpl in Hrun;
        [| discriminate].
      eapply heap_keeps_trans; [| apply IH; exact Hrun].
      eapply step_keeps. exact Hs. }
  split.
  - intros p u Hp. specialize (Hk p). rewrite Hp in Hk.
    inversion Hk; subst. eauto.
  - intros p Hp. specialize (Hk p). rewrite Hp in Hk.
    inversion Hk; subst. reflexivity.
Qed.

Lemma points_to_unique (h : gmap ptr io_u) ps us us' :
  points_to h ps us -> points_to h ps us' -> us = us'.
Proof.
  intros Hpt. revert us'.
  induction Hpt as [| p u ps us Hp _ IH]; intros us' Hpt';
    inversion Hpt'; subst; [reflexivity |].
  f_equal; [congruence | apply IH; assumption].
Qed.

Lemma iovec_of_same us us' :
  Forall2 same_request us us' -> iovec_of <$> us = iovec_of <$> us'.
Proof.
  induction 1 as [| u u' us us' Hs _ IH]; [reflexivity |].
  destruct Hs as (_ & _ & _ & Hb & Hl).
  rewrite !fmap_cons. f_equal; [| exact IH].
  unfold iovec_of. rewrite Hb, Hl. reflexivity.
Qed.

Lemma iov_inv_empty m : queued (sd m) = 0 -> iov_inv_holds m.
Proof.
  intros Hq. exists []. split; [apply batch_empty; exact Hq |].
  unfold batch_iovecs. rewrite Hq. reflexivity.
Qed.

Lemma iov_inv_keeps m m' :
  sd m' = sd m -> heap_keeps (heap m) (heap m') ->
  iov_inv_holds m -> iov_inv_holds m'.
Proof.
  intros Hs Hk (us & [Hq Hpt] & Hiov).
  destruct (heap_keeps_points_to _ _ _ _ Hk Hpt) as (us' & Hpt' & Hsame).
  exists us'. split.
  - split; rewrite Hs; [| exact Hpt'].
    rewrite Hq. f_equal. eapply Forall2_length. exact Hsame.
  - rewrite Hs, Hiov. apply iovec_of_same. exact Hsame.
Qed.

Lemma iov_inv_queue depth m p fs r m' :
  depth_inv depth m -> iov_inv_holds m ->
  fio_vsyncio_queue fio_ro_check m p fs = Some (r, m') ->
  iov_inv_holds m'.
Proof.
  intros Hdi Hinv H. pose proof H as H0.
  apply fio_vsyncio_queue_cases in H.
  destruct H as (u & Hp & [[_ ->] | [(Hq & Hs & _ & Hk)
    | [(_ & _ & Hq & _ & s' & Hs & ->) | (_ & _ & Hq & s' & Hs & ->)]]]).
  - exact Hinv.
  - apply iov_inv_empty. rewrite Hs. exact Hq.
  - pose proof (fio_vsyncio_set_iov_Some _ _ _ _ _ Hs) as (_ & Hl1 & _ & _).
    simpl in Hl1. destruct Hdi as [H1 H2 H3 H4 H5].
    set (m0 := with_sd m (set_queued_bytes (set_queued (sd m) 0) 0)).
    assert (Hdi0 : depth_inv depth m0).
    { constructor; simpl; try assumption; [lia |].
      unfold is_uint, UINT_MOD. lia. }
    destruct (set_iov_at_count depth m0 p u Hdi0)
      as (s'' & Hs'' & Hq'' & Hps & Hiov & _); [simpl; lia | simpl; lia |].
    change (fio_vsyncio_set_iov (sd m0) p u (to_int (queued (sd m0))))
      with (fio_vsyncio_set_iov
              (set_queued_bytes (set_queued (sd m) 0) 0) p u 0) in Hs''.
    rewrite Hs in Hs''. inversion Hs''; subst s''.
    exists [u]. split.
    + split; [exact Hq'' |]. simpl. rewrite Hps.
      repeat constructor. exact Hp.
    + simpl. rewrite Hiov. reflexivity.
  - pose proof (fio_vsyncio_set_iov_Some _ _ _ _ _ Hs) as (Hi0 & Hl1 & _ & _).
    pose proof Hdi as [H1 H2 H3 H4 H5].
    pose proof (to_int_lt (queued (sd m))) as Hlt.
    rewrite (to_int_nonneg _ H5 Hi0) in Hl1, Hlt.
    destruct (set_iov_at_count depth m p u Hdi)
      as (s'' & Hs'' & Hq'' & Hps & Hiov & _); [lia | lia |].
    rewrite Hs in Hs''. inversion Hs''; subst s''.
    destruct Hinv as (us & [Hqu Hpt] & Hiv).
    exists (us ++ [u]). split.
    + split; simpl.
      * rewrite Hq'', length_app, Hqu. simpl. lia.
      * rewrite Hps. apply Forall2_app; [exact Hpt |].
        repeat constructor. exact Hp.
    + simpl. rewrite Hiov, Hiv, fmap_app. reflexivity.
Qed.

Lemma iov_inv_run depth ops :
  forall m m',
    depth_inv depth m -> iov_inv_holds m ->
    run fio_ro_check m ops = Some m' -> iov_inv_holds m'.
Proof.
  induction ops as [| o ops IH]; simpl; intros m m' Hdi Hinv H.
  - inversion H; subst. exact Hinv.
  - destruct (step fio_ro_check m o) as [m1 |] eqn:Hs; simpl in H;
      [| discriminate].
    eapply IH; [| | exact H].
    + eapply depth_inv_step; eassumption.
    + destruct o as [p fs | ls xf | min max]; simpl in Hs.
      * destruct (fio_vsyncio_queue _ _ _ _) as [[r m2] |] eqn:Hq;
          simpl in Hs; [| discriminate].
        inversion Hs; subst. eapply iov_inv_queue; eassumption.
      * destruct (fio_vsyncio_commit _ _ _) as [[r m2] |] eqn:Hc;
          simpl in Hs; [| discriminate].
        inversion Hs; subst. apply fio_vsyncio_commit_keeps in Hc.
        eapply iov_inv_keeps; [apply Hc | apply Hc | exact Hinv].
      * inversion Hs; subst. unfold fio_vsyncio_getevents.
        destruct (min =? 0); simpl; [exact Hinv |].
        apply iov_inv_empty. reflexivity.
Qed.

(** X16. The descriptors mirror the requests: in every state a run
    reaches from the initial state, the first [queued] descriptors are,
    in order, the buffer address and the length of the queued requests.
    These descriptors are what a commit hands to [readv] or [writev]. *)
Theorem descriptors_mirror_requests :
  forall (depth : Z) (h : gmap ptr io_u) (ops : list op) (m : machine)
         (us : list io_u),
    0 <= depth ->
    run fio_ro_check (fio_vsyncio_init depth h) ops = Some m ->
    batch m us ->
    batch_iovecs (sd m) = iovec_of <$> us
    /\ vectored_call (sd m)
       = match last_ddir (sd m) with
         | DDIR_READ => SysReadv (last_file (sd m)) (iovec_of <$> us)
         | _ => SysWritev (last_file (sd m)) (iovec_of <$> us)
         end.
Proof.
  intros depth h ops m us Hd Hrun [Hq Hpt].
  pose proof (iov_inv_run depth ops _ _ (depth_inv_init depth h Hd)
                (iov_inv_empty (fio_vsyncio_init depth h) eq_refl) Hrun)
    as (us' & [_ Hpt'] & Hiov).
  rewrite (points_to_unique _ _ _ _ Hpt Hpt').
  split; [exact Hiov |]. unfold vectored_call. rewrite Hiov. reflexivity.
Qed.

End Queueing.

(** ** The mergeability test and what a submission makes of it *)

Section Merging.

Variable fio_ro_check : machine -> io_u -> bool.

Lemma fio_io_end_completed m p ret q m' :
  fio_io_end m p ret = Some (q, m') -> q = FIO_Q_COMPLETED.
Proof.
  unfold fio_io_end. intros H.
  destruct (heap m !! p) as [u |]; simpl in H; [| discriminate].
  repeat match type of H with
         | context [if ?c then _ else _] => destruct c
         end; inversion H; reflexivity.
Qed.

Lemma fio_vsyncio_append_iff s u :
  ddir u <> DDIR_SYNC ->
  (fio_vsyncio_append s u = true
   <-> offset u = last_offset s /\ file u = last_file s
       /\ ddir u = last_ddir s).
Proof.
  intros Hd. split.
  - intros H. apply fio_vsyncio_append_true in H. tauto.
  - intros (Ho & Hf & Hdd). unfold fio_vsyncio_append.
    rewrite Ho, Hf, Z.eqb_refl, N.eqb_refl.
    assert (He : ddir_eqb (ddir u) (last_ddir s) = true)
      by (apply ddir_eqb_eq; exact Hdd).
    rewrite He. destruct (ddir u); [reflexivity | reflexivity | congruence].
Qed.

(** The merge path of [fio_vsyncio_queue]. *)
Lemma queue_merge_step depth m p u fs :
  depth_inv depth m -> depth <= 2 ^ 31 -> queued (sd m) < depth ->
  heap m !! p = Some u -> fio_ro_check m u = true ->
  fio_vsyncio_append (sd m) u = true ->
  exists m',
    fio_vsyncio_queue fio_ro_check m p fs = Some (FIO_Q_QUEUED, m')
    /\ batch_ptrs (sd m') = batch_ptrs (sd m) ++ [p]
    /\ queued (sd m') = queued (sd m) + 1
    /\ queued_bytes (sd m')
       = to_ulong (queued_bytes (sd m) + xfer_buflen u)
    /\ heap m' = heap m.
Proof.
  intros Hdi Hd Hlt Hp Hc Ha.
  destruct (set_iov_at_count depth m p u Hdi Hlt ltac:(lia))
    as (s' & Hs & Hq' & Hps & _ & _ & _ & _ & Hqb & _).
  exists (with_sd m s'). unfold fio_vsyncio_queue.
  rewrite Hp. simpl. rewrite Hc, Ha. simpl.
  destruct Hdi as [H1 _ _ _ _].
  destruct (Z.eqb_spec (queued (sd m)) (iodepth m)) as [| _]; [lia |].
  rewrite Hs. simpl.
  split; [reflexivity |]. split; [exact Hps |]. split; [exact Hq' |].
  split; [exact Hqb | reflexivity].
Qed.

Lemma fio_vsyncio_getevents_min m min max :
  1 <= min ->
  fio_vsyncio_getevents m min max
  = (to_int (queued (sd m)), with_sd m (set_queued (sd m) 0)).
Proof.
  intros Hmin. unfold fio_vsyncio_getevents.
  destruct (Z.eqb_spec min 0) as [| _]; [lia | reflexivity].
Qed.

(** C4 (as amended).  The mergeability test is the three-way comparison
    of [fio_vsyncio_append], and [fio_vsyncio_queue] acts on its answer.

    - A request that is not a sync barrier passes the test exactly when
      its offset is the tracked end offset, its file the tracked file
      and its direction the tracked direction.
    - A request that passes is merged when the queued count is below the
      depth: it is stored after the queued requests, the count grows by
      one and its length is added to the cumulative bytes.  When the
      count equals [iodepth] it is answered "busy" and nothing changes.
    - A request that fails is never merged: with requests queued it is
      answered "busy" and nothing changes; with none queued, a read or
      write starts a fresh batch of one request whose cumulative bytes
      are its length.
    - A sync barrier never passes the test and is never queued; the
      engine data is the same after its submission.
    - On the freshly initialised engine a request that names a file
      fails the test.
    - The test does not look at the queued count.  After any commit and
      a poll with [min >= 1] no request is queued, yet a read or write
      that continues the tracked offset, file and direction passes the
      test and goes through the merge path: it is the only request of
      the batch, and its length is added to the cumulative bytes that
      the batch before it left behind. *)
Theorem mergeability_decides_queue :
  (forall (s : syncio_data) (u : io_u),
      ddir u <> DDIR_SYNC ->
      (fio_vsyncio_append s u = true
       <-> offset u = last_offset s /\ file u = last_file s
           /\ ddir u = last_ddir s))
  /\ (forall (m : machine) (p : ptr) (u : io_u) (fs : sysres),
        heap m !! p = Some u -> fio_ro_check m u = true ->
        fio_vsyncio_append (sd m) u = true ->
        (queued (sd m) = iodepth m ->
         fio_vsyncio_queue fio_ro_check m p fs = Some (FIO_Q_BUSY, m))
        /\ (forall depth : Z,
              depth_inv depth m -> depth <= 2 ^ 31 ->
              queued (sd m) < depth ->
              exists m',
                fio_vsyncio_queue fio_ro_check m p fs
                = Some (FIO_Q_QUEUED, m')
                /\ batch_ptrs (sd m') = batch_ptrs (sd m) ++ [p]
                /\ queued (sd m') = queued (sd m) + 1
                /\ queued_bytes (sd m')
                   = to_ulong (queued_bytes (sd m) + xfer_buflen u)
                /\ heap m' = heap m))
  /\ (forall (m : machine) (p : ptr) (u : io_u) (fs : sysres),
        heap m !! p = Some u -> fio_ro_check m u = true ->
        fio_vsyncio_append (sd m) u = false ->
        (queued (sd m) <> 0 ->
         fio_vsyncio_queue fio_ro_check m p fs = Some (FIO_Q_BUSY, m))
        /\ (forall depth : Z,
              depth_inv depth m -> 1 <= depth ->
              queued (sd m) = 0 -> ddir u <> DDIR_SYNC ->
              exists m',
                fio_vsyncio_queue fio_ro_check m p fs
                = Some (FIO_Q_QUEUED, m')
                /\ batch_ptrs (sd m') = [p]
                /\ queued (sd m') = 1
                /\ queued_bytes (sd m') = to_ulong (xfer_buflen u)
                /\ heap m' = heap m))
  /\ (forall (m : machine) (p : ptr) (u : io_u) (fs : sysres),
        heap m !! p = Some u -> ddir u = DDIR_SYNC ->
        fio_vsyncio_append (sd m) u = false
        /\ forall (q : fio_q) (m' : machine),
             fio_vsyncio_queue fio_ro_check m p fs = Some (q, m') ->
             q <> FIO_Q_QUEUED /\ sd m' = sd m)
  /\ (forall (depth : Z) (h : gmap ptr io_u) (u : io_u),
        file u <> NULL ->
        fio_vsyncio_append (sd (fio_vsyncio_init depth h)) u = false)
  /\ (forall (depth : Z) (m : machine) (ls xf : sysres) (r : Z)
             (m1 : machine) (min max : Z) (p : ptr) (u : io_u)
             (fs : sysres),
        depth_inv depth m -> 1 <= depth <= 2 ^ 31 ->
        fio_vsyncio_commit m ls xf = Some (r, m1) -> 1 <= min ->
        let m2 := snd (fio_vsyncio_getevents m1 min max) in
        heap m2 !! p = Some u -> fio_ro_check m2 u = true ->
        ddir u <> DDIR_SYNC ->
        offset u = last_offset (sd m) -> file u = last_file (sd m) ->
        ddir u = last_ddir (sd m) ->
        queued (sd m2) = 0
        /\ fio_vsyncio_append (sd m2) u = true
        /\ exists m3,
             fio_vsyncio_queue fio_ro_check m2 p fs
             = Some (FIO_Q_QUEUED, m3)
             /\ batch_ptrs (sd m3) = [p]
             /\ queued (sd m3) = 1
             /\ queued_bytes (sd m3)
                = to_ulong (queued_bytes (sd m) + xfer_buflen u)).
Proof.
  split; [exact fio_vsyncio_append_iff |].
  split; [| split; [| split; [| split]]].
  - intros m p u fs Hp Hc Ha. split.
    + intros Hq. unfold fio_vsyncio_queue.
      rewrite Hp. simpl. rewrite Hc, Ha. simpl.
      destruct (Z.eqb_spec (queued (sd m)) (iodepth m)) as [_ |];
        [reflexivity | contradiction].
    + intros depth Hdi Hd Hlt. apply (queue_merge_step depth); assumption.
  - intros m p u fs Hp Hc Ha. split.
    + intros Hq. unfold fio_vsyncio_queue.
      rewrite Hp. simpl. rewrite Hc, Ha. simpl.
      destruct (Z.eqb_spec (queued (sd m)) 0) as [| _];
        [contradiction | reflexivity].
    + intros depth Hdi Hd Hq Hdd.
      destruct (queue_fresh_step fio_ro_check depth m p u fs Hdi Hd Hq Hp
                  Hc Ha Hdd)
        as (m' & Hqu & _ & [Hq1 _] & Hps & _ & Hh & _ & _ & _ & _ & Hqb).
      exists m'. split; [exact Hqu |]. split; [exact Hps |].
      split; [exact Hq1 |]. split; [exact Hqb | exact Hh].
  - intros m p u fs Hp Hd.
    assert (Ha : fio_vsyncio_append (sd m) u = false)
      by (unfold fio_vsyncio_append; rewrite Hd; reflexivity).
    split; [exact Ha |].
    intros q m' H. unfold fio_vsyncio_queue in H.
    rewrite Hp in H. simpl in H.
    destruct (fio_ro_check m u); simpl in H; [| discriminate].
    rewrite Ha in H. simpl in H.
    destruct (queued (sd m) =? 0); simpl in H.
    + rewrite Hd in H.
      destruct (file u =? NULL)%N; [discriminate |].
      pose proof (fio_io_end_completed _ _ _ _ _ H) as ->.
      apply fio_io_end_keeps in H. destruct H as (Hsd & _).
      split; [discriminate | exact Hsd].
    + inversion H; subst. split; [discriminate | reflexivity].
  - intros depth h u Hf. unfold fio_vsyncio_append. simpl.
    destruct (N.eqb_spec (file u) NULL) as [| _]; [contradiction |].
    rewrite andb_false_r. destruct (ddir u); reflexivity.
  - intros depth m ls xf r m1 min max p u fs Hdi Hd Hcm Hmin m2 Hp Hc Hdd
      Ho Hf Hddir.
    pose proof (fio_vsyncio_commit_keeps _ _ _ _ _ Hcm) as (Hsd & Hio & _).
    assert (Hm2 : m2 = with_sd m1 (set_queued (sd m1) 0))
      by (unfold m2; rewrite fio_vsyncio_getevents_min by exact Hmin;
          reflexivity).
    assert (Hdi2 : depth_inv depth m2).
    { rewrite Hm2. destruct Hdi as [H1 H2 H3 H4 H5].
      constructor; simpl; rewrite ?Hsd, ?Hio; try assumption; [lia |].
      unfold is_uint, UINT_MOD. lia. }
    assert (Hq2 : queued (sd m2) = 0) by (rewrite Hm2; reflexivity).
    assert (Ha : fio_vsyncio_append (sd m2) u = true).
    { apply fio_vsyncio_append_iff; [exact Hdd |].
      rewrite Hm2. simpl. rewrite Hsd. auto. }
    split; [exact Hq2 |]. split; [exact Ha |].
    destruct (queue_merge_step depth m2 p u fs Hdi2) as
      (m3 & Hqu & Hps & Hq3 & Hqb & _); try assumption; try lia.
    exists m3. split; [exact Hqu |].
    assert (Hps2 : batch_ptrs (sd m2) = [])
      by (unfold batch_ptrs; rewrite Hq2; reflexivity).
    rewrite Hps2 in Hps. rewrite Hq2 in Hq3.
    split; [exact Hps |]. split; [exact Hq3 |].
    rewrite Hqb, Hm2. simpl. rewrite Hsd. reflexivity.
Qed.

End Merging.

(** ** Polling *)

(** C8 (as amended).  [fio_vsyncio_getevents] issues no system call and
    touches no request: it reads the queued count.  Called with
    [min >= 1] it returns the number of requests queued in the batch and
    sets that count to zero, everything else staying as it is, so a
    second poll with [min >= 1] returns zero; called with [min = 0] it
    returns zero and changes nothing.  After a commit of the batch
    [u0 :: us0] the poll returns the number of requests of that batch.
    When the positioning of the commit succeeded these are the requests
    the commit carried out: the calls of the commit are the [lseek] and
    one vectored transfer with as many descriptors as the poll counts.
    When the positioning failed, the commit issued the [lseek] only and
    wrote to no request, and the poll counts the requests of the batch
    all the same. *)
Theorem poll_returns_queued_count :
  (forall (m : machine) (min max : Z),
      1 <= min -> 0 <= queued (sd m) < 2 ^ 31 ->
      fio_vsyncio_getevents m min max
      = (queued (sd m), with_sd m (set_queued (sd m) 0)))
  /\ (forall (m : machine) (min max min2 max2 : Z),
        1 <= min -> 1 <= min2 ->
        fst (fio_vsyncio_getevents
               (snd (fio_vsyncio_getevents m min max)) min2 max2) = 0)
  /\ (forall (m : machine) (max : Z),
        fio_vsyncio_getevents m 0 max = (0, m))
  /\ (forall (depth : Z) (m : machine) (u0 : io_u) (us0 : list io_u)
             (ls xf : sysres) (r : Z) (m1 : machine) (min max : Z),
        depth_inv depth m -> depth < 2 ^ 31 -> batch m (u0 :: us0) ->
        fio_vsyncio_commit m ls xf = Some (r, m1) -> 1 <= min ->
        fst (fio_vsyncio_getevents m1 min max)
        = Z.of_nat (length (u0 :: us0))
        /\ (sr_ret ls <> -1 ->
            trace m1
            = trace m ++ [SysLseek (last_file (sd m)) (offset u0);
                          vectored_call (sd m)]
            /\ length (batch_iovecs (sd m)) = length (u0 :: us0))
        /\ (sr_ret ls = -1 ->
            trace m1 = trace m ++ [SysLseek (last_file (sd m)) (offset u0)]
            /\ heap m1 = heap m)).
Proof.
  split; [| split; [| split]].
  - intros m min max Hmin Hq.
    rewrite fio_vsyncio_getevents_min by exact Hmin.
    rewrite to_int_id by lia. reflexivity.
  - intros m min max min2 max2 Hmin Hmin2.
    rewrite (fio_vsyncio_getevents_min m) by exact Hmin.
    rewrite fio_vsyncio_getevents_min by exact Hmin2. reflexivity.
  - intros m max. reflexivity.
  - intros depth m u0 us0 ls xf r m1 min max Hdi Hd Hb Hc Hmin.
    pose proof (fio_vsyncio_commit_keeps _ _ _ _ _ Hc) as (Hsd & _ & _).
    destruct (batch_first _ _ _ Hb) as (p0 & Hp0 & Hu0).
    pose proof Hb as [Hq _].
    destruct Hdi as [H1 H2 H3 H4 H5].
    split.
    { rewrite fio_vsyncio_getevents_min by exact Hmin. simpl.
      rewrite Hsd, to_int_id by lia. exact Hq. }
    unfold fio_vsyncio_commit in Hc.
    destruct (Z.eqb_spec (queued (sd m)) 0) as [Hz | _];
      [simpl in Hq; lia |].
    destruct (last_file (sd m) =? NULL)%N; [discriminate |].
    rewrite Hp0 in Hc. simpl in Hc. rewrite Hu0 in Hc. simpl in Hc.
    destruct (Z.eqb_spec (sr_ret ls) (-1)) as [Hls | Hls].
    + split; [contradiction |]. intros _.
      inversion Hc; subst. split; reflexivity.
    + split; [| contradiction]. intros _.
      apply fio_vsyncio_end_trace in Hc. rewrite Hc. simpl.
      rewrite <- app_assoc. split.
      * unfold vectored_call, batch_iovecs.
        destruct (last_ddir (sd m)); reflexivity.
      * unfold batch_iovecs. rewrite length_take. simpl length in *. lia.
Qed.

(** ** The single-request engines *)

Section SingleRequestProps.

Variable fio_ro_check : machine -> io_u -> bool.

Lemma fio_syncio_prep_sync s p u ls :
  heap (st_td s) !! p = Some u -> ddir u = DDIR_SYNC ->
  fio_syncio_prep s p ls = Some (0, s).
Proof.
  intros Hp Hd. unfold fio_syncio_prep. rewrite Hp. simpl. rewrite Hd.
  reflexivity.
Qed.

Lemma fio_syncio_prep_rw s p u f ls :
  heap (st_td s) !! p = Some u -> ddir u <> DDIR_SYNC ->
  st_files s !! file u = Some f ->
  fio_syncio_prep s p ls
  = if offset u =? last_completed_pos f then Some (0, s)
    else
      let s1 := issue s (IoLseek (fd f) (offset u)) ls in
      if sr_ret ls =? -1 then
        Some (1, with_td s1 (td_verror (st_td s1) (errno (st_td s1))
                               "lseek"))
      else Some (0, s1).
Proof.
  intros Hp Hd Hf. unfold fio_syncio_prep. rewrite Hp. simpl.
  destruct (ddir u); try congruence; rewrite Hf; reflexivity.
Qed.

(** X17. [fio_syncio_prep] positions the file only when it has to: for a
    sync barrier, or a request that starts where the last completed
    transfer ended, it returns 0 and does nothing; otherwise it issues
    one [lseek] to the request's offset and returns 1, after reporting
    [errno] with "lseek", exactly when that [lseek] failed.  It never
    writes to a request or to the engine data. *)
Theorem fio_syncio_prep_seeks_when_needed :
  forall (s : sthread) (p : ptr) (u : io_u) (f : fio_file) (ls : sysres),
    heap (st_td s) !! p = Some u -> st_files s !! file u = Some f ->
    exists r s',
      fio_syncio_prep s p ls = Some (r, s')
      /\ heap (st_td s') = heap (st_td s)
      /\ sd (st_td s') = sd (st_td s)
      /\ (ddir u = DDIR_SYNC \/ offset u = last_completed_pos f ->
          r = 0 /\ s' = s)
      /\ (ddir u <> DDIR_SYNC -> offset u <> last_completed_pos f ->
          st_calls s' = st_calls s ++ [IoLseek (fd f) (offset u)]
          /\ (sr_ret ls = -1 ->
              r = 1
              /\ verrors (st_td s')
                 = verrors (st_td s) ++ [(sr_errno ls, "lseek"%string)])
          /\ (sr_ret ls <> -1 -> r = 0 /\ st_td s' = st_td s)).
Proof.
  intros s p u f ls Hp Hf.
  assert (Hdec : ddir u = DDIR_SYNC \/ ddir u <> DDIR_SYNC)
    by (destruct (ddir u); (left; reflexivity) || (right; discriminate)).
  destruct Hdec as [Hd | Hd].
  { rewrite (fio_syncio_prep_sync s p u ls Hp Hd). exists 0, s.
    repeat split; try reflexivity; contradiction. }
  rewrite (fio_syncio_prep_rw s p u f ls Hp Hd Hf).
  destruct (Z.eqb_spec (offset u) (last_completed_pos f)) as [Ho | Ho].
  { exists 0, s. repeat split; try reflexivity; contradiction. }
  unfold issue. simpl.
  destruct (Z.eqb_spec (sr_ret ls) (-1)) as [Hr | Hr];
    (eexists _, _; split; [reflexivity |]); simpl;
    (split; [reflexivity |]; split; [reflexivity |]);
    (split; [intros [? | ?]; contradiction |]);
    intros _ _; (split; [reflexivity |]).
  - split; [intros _; split; reflexivity | contradiction].
  - split; [contradiction | intros _; split; reflexivity].
Qed.

Lemma single_end_eq s p c r u :
  heap (st_td s) !! p = Some u ->
  exists m',
    fio_io_end (st_td (issue s c r)) p (to_int (sr_ret r))
    = Some (FIO_Q_COMPLETED, m')
    /\ single_end s p c r
       = Some (FIO_Q_COMPLETED,
               {| st_td := m'; st_files := st_files s;
                  st_calls := st_calls s ++ [c] |})
    /\ sd m' = sd (st_td s)
    /\ forall q, q <> p -> heap m' !! q = heap (st_td s) !! q.
Proof.
  intros Hp. unfold single_end.
  set (m1 := st_td (issue s c r)).
  assert (Hp1 : heap m1 !! p = Some u).
  { unfold m1, issue. simpl. destruct (sr_ret r =? -1); exact Hp. }
  assert (Hsd1 : sd m1 = sd (st_td s)).
  { unfold m1, issue. simpl. destruct (sr_ret r =? -1); reflexivity. }
  assert (Hh1 : heap m1 = heap (st_td s)).
  { unfold m1, issue. simpl. destruct (sr_ret r =? -1); reflexivity. }
  unfold fio_io_end. rewrite Hp1. simpl.
  repeat match goal with
         | |- context [if ?c then _ else _] => destruct c
         end;
    (eexists; split; [reflexivity |]; split; [reflexivity |];
     split; [exact Hsd1 |]; intros q Hq; simpl; rewrite <- Hh1;
     try reflexivity; apply lookup_insert_ne; congruence).
Qed.

(** X18. The "psync" engine on a read or write of [len] bytes
    ([len < 2^31]): it issues one [pread] or [pwrite] with the request's
    buffer, length and offset, answers "completed", and leaves the
    engine data and every other request alone.  If the call moved all
    [len] bytes the request is untouched; if it moved [ret < len] bytes
    the residual is [len - ret], the error 0 and nothing is reported;
    if it failed with code [e] the error is [e], reported with "xfer",
    and the residual is untouched. *)
Theorem psync_transfer_outcome :
  forall (s : sthread) (p : ptr) (u : io_u) (f : fio_file) (r : sysres),
    heap (st_td s) !! p = Some u -> fio_ro_check (st_td s) u = true ->
    st_files s !! file u = Some f -> ddir u <> DDIR_SYNC ->
    0 <= xfer_buflen u < 2 ^ 31 ->
    -1 <= sr_ret r <= xfer_buflen u ->
    exists s',
      fio_psyncio_queue fio_ro_check s p r = Some (FIO_Q_COMPLETED, s')
      /\ st_calls s'
         = st_calls s
           ++ [match ddir u with
               | DDIR_READ =>
                   IoPread (fd f) (xfer_buf u) (xfer_buflen u) (offset u)
               | _ =>
                   IoPwrite (fd f) (xfer_buf u) (xfer_buflen u) (offset u)
               end]
      /\ sd (st_td s') = sd (st_td s)
      /\ (forall q, q <> p ->
            heap (st_td s') !! q = heap (st_td s) !! q)
      /\ (sr_ret r = xfer_buflen u -> heap (st_td s') !! p = Some u)
      /\ (0 <= sr_ret r < xfer_buflen u ->
          heap (st_td s') !! p
          = Some (resolved u (xfer_buflen u - sr_ret r))
          /\ verrors (st_td s') = verrors (st_td s))
      /\ (sr_ret r = -1 -> 0 < sr_errno r < 2 ^ 31 ->
          heap (st_td s') !! p = Some (set_error u (sr_errno r))
          /\ verrors (st_td s')
             = verrors (st_td s) ++ [(sr_errno r, "xfer"%string)]).
Proof.
  intros s p u f r Hp Hc Hf Hd Hlen Hret.
  unfold fio_psyncio_queue. rewrite Hp. simpl. rewrite Hc. simpl.
  rewrite Hf. simpl.
  set (c := match ddir u with
            | DDIR_READ =>
                IoPread (fd f) (xfer_buf u) (xfer_buflen u) (offset u)
            | _ => IoPwrite (fd f) (xfer_buf u) (xfer_buflen u) (offset u)
            end).
  assert (Hq : match ddir u with
               | DDIR_READ =>
                   single_end s p
                     (IoPread (fd f) (xfer_buf u) (xfer_buflen u) (offset u))
                     r
               | DDIR_WRITE =>
                   single_end s p
                     (IoPwrite (fd f) (xfer_buf u) (xfer_buflen u)
                        (offset u)) r
               | DDIR_SYNC => single_end s p (IoFsync (fd f)) r
               end = single_end s p c r)
    by (unfold c; destruct (ddir u); congruence).
  rewrite Hq.
  destruct (single_end_eq s p c r u Hp) as (m' & Hend & Hse & Hsd & Hfr).
  rewrite Hse. eexists. split; [reflexivity |]. simpl.
  split; [reflexivity |]. split; [exact Hsd |]. split; [exact Hfr |].
  rewrite (to_int_id (sr_ret r)) in Hend by lia.
  set (m1 := st_td (issue s c r)) in *.
  assert (Hp1 : heap m1 !! p = Some u).
  { unfold m1, issue. simpl. destruct (sr_ret r =? -1); exact Hp. }
  split; [| split].
  - intros Hfull.
    rewrite (fio_io_end_full_eq m1 p u (sr_ret r) Hp1) in Hend
      by (rewrite to_int_id; lia).
    assert (Hm1 : m1 = st_td s).
    { unfold m1, issue. simpl.
      destruct (Z.eqb_spec (sr_ret r) (-1)); [lia | reflexivity]. }
    destruct (error u =? 0); inversion Hend; subst m'; simpl;
      rewrite Hm1; exact Hp.
  - intros Hshort.
    rewrite (fio_io_end_short_eq m1 p u (sr_ret r) Hp1) in Hend
      by (try lia; rewrite to_int_id; lia).
    rewrite (to_ulong_id (xfer_buflen u - sr_ret r)) in Hend
      by (unfold is_ulong, ULONG_MOD; lia).
    rewrite (to_uint_id (xfer_buflen u - sr_ret r)) in Hend
      by (unfold is_uint, UINT_MOD; lia).
    assert (Hm1 : m1 = st_td s).
    { unfold m1, issue. simpl.
      destruct (Z.eqb_spec (sr_ret r) (-1)); [lia | reflexivity]. }
    inversion Hend; subst m'. simpl. rewrite Hm1.
    split; [apply lookup_insert_eq | reflexivity].
  - intros Hfail He.
    rewrite (fio_io_end_fail_eq m1 p u (sr_ret r) Hp1) in Hend
      by (try lia; rewrite to_int_id; lia).
    assert (Hm1 : m1 = with_errno (st_td s) (sr_errno r)).
    { unfold m1, issue. simpl.
      destruct (Z.eqb_spec (sr_ret r) (-1)); [reflexivity | lia]. }
    rewrite Hm1 in Hend. simpl in Hend.
    rewrite (to_uint_id (sr_errno r)) in Hend
      by (unfold is_uint, UINT_MOD; lia).
    destruct (Z.eqb_spec (sr_errno r) 0) as [| _]; [lia |].
    inversion Hend; subst m'. simpl.
    split; [apply lookup_insert_eq | reflexivity].
Qed.

(** X19. The "sync" and "psync" engines resolve a request in the same
    way: given the same answer to their one call, they fault together
    or give the same answer, the same thread data and the same request
    store; the calls they issue differ only in that [read] and [write]
    carry no offset. *)
Theorem single_request_engines_agree :
  forall (s : sthread) (p : ptr) (r : sysres),
    match fio_psyncio_queue fio_ro_check s p r,
          fio_syncio_queue fio_ro_check s p r with
    | Some (q1, s1), Some (q2, s2) =>
        q1 = q2 /\ st_td s1 = st_td s2 /\ st_files s1 = st_files s2
        /\ exists c,
             st_calls s1 = st_calls s ++ [c]
             /\ st_calls s2 = st_calls s ++ [forget_offset c]
    | None, None => True
    | _, _ => False
    end.
Proof.
  intros s p r. unfold fio_psyncio_queue, fio_syncio_queue.
  destruct (heap (st_td s) !! p) as [u |] eqn:Hp; simpl; [| exact I].
  destruct (fio_ro_check (st_td s) u); simpl; [| exact I].
  destruct (st_files s !! file u) as [f |]; simpl; [| exact I].
  assert (Hpair : forall c,
    match single_end s p c r, single_end s p (forget_offset c) r with
    | Some (q1, s1), Some (q2, s2) =>
        q1 = q2 /\ st_td s1 = st_td s2 /\ st_files s1 = st_files s2
        /\ exists c0,
             st_calls s1 = st_calls s ++ [c0]
             /\ st_calls s2 = st_calls s ++ [forget_offset c0]
    | None, None => True
    | _, _ => False
    end).
  { intros c.
    destruct (single_end_eq s p c r u Hp) as (m1 & He1 & Hs1 & _).
    destruct (single_end_eq s p (forget_offset c) r u Hp)
      as (m2 & He2 & Hs2 & _).
    rewrite Hs1, Hs2. simpl.
    assert (Hm : m1 = m2).
    { assert (Hi : st_td (issue s c r)
                   = st_td (issue s (forget_offset c) r)) by reflexivity.
      rewrite Hi in He1. congruence. }
    repeat split; [exact Hm |]. exists c. split; reflexivity. }
  destruct (ddir u).
  - apply (Hpair (IoPread (fd f) (xfer_buf u) (xfer_buflen u) (offset u))).
  - apply (Hpair (IoPwrite (fd f) (xfer_buf u) (xfer_buflen u) (offset u))).
  - apply (Hpair (IoFsync (fd f))).
Qed.

(** X20. For a sync barrier and no queued request, the batching engine
    does what the single-request engines do: given the same answer to
    the [fsync], [fio_vsyncio_queue] and [fio_psyncio_queue] fault
    together or give the same answer and leave the same request store,
    engine data, [errno] and reports. *)
Theorem vsync_sync_barrier_matches_psync :
  forall (s : sthread) (p : ptr) (u : io_u) (f : fio_file) (fs : sysres),
    heap (st_td s) !! p = Some u -> ddir u = DDIR_SYNC ->
    queued (sd (st_td s)) = 0 -> file u <> NULL ->
    st_files s !! file u = Some f ->
    match fio_vsyncio_queue fio_ro_check (st_td s) p fs,
          fio_psyncio_queue fio_ro_check s p fs with
    | Some (q1, m1), Some (q2, s2) =>
        q1 = q2 /\ heap m1 = heap (st_td s2) /\ sd m1 = sd (st_td s2)
        /\ errno m1 = errno (st_td s2)
        /\ verrors m1 = verrors (st_td s2)
        /\ trace m1 = trace (st_td s) ++ [SysFsync (file u)]
        /\ st_calls s2 = st_calls s ++ [IoFsync (fd f)]
    | None, None => True
    | _, _ => False
    end.
Proof.
  intros s p u f fs Hp Hd Hq Hnull Hf.
  unfold fio_vsyncio_queue, fio_psyncio_queue. rewrite Hp. simpl.
  destruct (fio_ro_check (st_td s) u); simpl; [| exact I].
  assert (Ha : fio_vsyncio_append (sd (st_td s)) u = false)
    by (unfold fio_vsyncio_append; rewrite Hd; reflexivity).
  rewrite Ha, Hq, Hf, Hd. simpl.
  destruct (N.eqb_spec (file u) NULL) as [| _]; [contradiction |].
  unfold single_end, fio_io_end, issue, do_syscall. simpl.
  destruct (sr_ret fs =? -1); simpl; rewrite Hp; simpl;
    repeat match goal with
           | |- context [if ?c then _ else _] => destruct c
           end; simpl; repeat split.
Qed.

End SingleRequestProps.

(** ** The further properties at work on the example *)

Lemma ex_batch3_depth_inv : depth_inv 4 ex_batch3.
Proof.
  apply (depth_inv_run ex_check 4 ex_queue3 (fio_vsyncio_init 4 ex_heap)).
  - apply depth_inv_init. lia.
  - exact ex_run_batch3.
Qed.

Lemma ex_heap_len (p : ptr) (u : io_u) :
  heap ex_batch3 !! p = Some u -> 0 <= xfer_buflen u.
Proof. intros H. apply (ex_heap_ok p u H). Qed.

Lemma fio_io_end_short_conserves_witness :
  exists u',
    fio_io_end ex_batch3 1%N 40
    = Some (FIO_Q_COMPLETED,
            with_heap ex_batch3 (<[1%N := u']> (heap ex_batch3)))
    /\ resid u' + 40 = 100 /\ error u' = 0.
Proof.
  destruct (fio_io_end_short_conserves ex_batch3 1%N
              (ex_req DDIR_READ 0 100) 40)
    as (u' & He & Hr & Herr & _).
  - reflexivity.
  - simpl. lia.
  - simpl. lia.
  - exists u'. split; [exact He | split; [exact Hr | exact Herr]].
Defined.

Lemma fio_io_end_failure_reports_witness :
  fio_io_end (with_errno ex_batch3 5) 1%N (-1)
  = Some (FIO_Q_COMPLETED,
          td_verror
            (with_heap (with_errno ex_batch3 5)
               (<[1%N := set_error (ex_req DDIR_READ 0 100) 5]> ex_heap))
            5 "xfer").
Proof.
  apply (fio_io_end_failure_reports (with_errno ex_batch3 5) 1%N
           (ex_req DDIR_READ 0 100) (-1)).
  - reflexivity.
  - lia.
  - simpl. lia.
  - simpl. lia.
Defined.

Lemma fio_io_end_full_keeps_witness :
  exists m',
    fio_io_end ex_batch3 1%N 100 = Some (FIO_Q_COMPLETED, m')
    /\ heap m' = ex_heap
    /\ verrors m' = [(9, "xfer"%string)].
Proof.
  destruct (fio_io_end_full_keeps ex_batch3 1%N (ex_req DDIR_READ 0 100))
    as (m' & He & Hh & _ & Hv).
  - reflexivity.
  - simpl. lia.
  - exists m'. split; [exact He | split; [exact Hh | exact Hv]].
Defined.

Lemma commit_full_transfer_writes_nothing_witness :
  exists m',
    fio_vsyncio_commit ex_batch3 (ok_res 0) (ok_res 350) = Some (0, m')
    /\ heap m' = ex_heap
    /\ trace m'
       = [SysLseek ex_file 0;
          SysReadv ex_file
            [Iovec 4096%N 100; Iovec 4096%N 200; Iovec 4096%N 50]].
Proof.
  destruct (commit_full_transfer_writes_nothing ex_batch3
              (ex_req DDIR_READ 0 100)
              [ex_req DDIR_READ 100 200; ex_req DDIR_READ 300 50]
              (ok_res 0) (ok_res 350))
    as (m' & Hc & Hh & _ & _ & Ht).
  - exact ex_batch3_batch.
  - discriminate.
  - simpl. lia.
  - unfold is_ulong, ULONG_MOD. simpl. lia.
  - reflexivity.
  - exists m'. split; [exact Hc | split; [exact Hh | exact Ht]].
Defined.

Lemma nonnegative_transfer_is_success_witness :
  exists m',
    fio_vsyncio_commit ex_batch3 (ok_res 0) (ok_res 250) = Some (0, m')
    /\ verrors m' = [].
Proof.
  destruct (nonnegative_transfer_is_success ex_batch3
              (ex_req DDIR_READ 0 100)
              [ex_req DDIR_READ 100 200; ex_req DDIR_READ 300 50]
              (ok_res 0) (ok_res 250))
    as (m' & Hc & Hv & _).
  - exact ex_batch3_batch.
  - discriminate.
  - exact ex_heap_len.
  - simpl. lia.
  - simpl. lia.
  - exists m'. split; [exact Hc | exact Hv].
Defined.

Lemma ex_commit_short :
  exists m',
    fio_vsyncio_commit ex_batch3 (ok_res 0) (ok_res 250) = Some (0, m').
Proof. eexists. vm_compute. reflexivity. Qed.

Lemma commit_writes_only_queued_witness :
  exists m',
    fio_vsyncio_commit ex_batch3 (ok_res 0) (ok_res 250) = Some (0, m')
    /\ heap m' !! 4%N = Some (ex_req DDIR_READ 1000 10).
Proof.
  destruct ex_commit_short as (m' & Hc). exists m'. split; [exact Hc |].
  rewrite (commit_writes_only_queued ex_batch3 (ok_res 0) (ok_res 250) 0
             m' 4%N Hc).
  - reflexivity.
  - compute_done.
Defined.

Lemma commit_calls_witness :
  exists m',
    fio_vsyncio_commit ex_batch3 (ok_res 0) (ok_res 250) = Some (0, m')
    /\ exists p0 u0,
         io_us (sd ex_batch3) !! 0%nat = Some p0
         /\ heap ex_batch3 !! p0 = Some u0
         /\ trace m'
            = [SysLseek ex_file (offset u0); vectored_call (sd ex_batch3)].
Proof.
  destruct ex_commit_short as (m' & Hc). exists m'. split; [exact Hc |].
  apply (proj2 (commit_calls ex_batch3 (ok_res 0) (ok_res 250) 0 m' Hc)).
  simpl. lia.
Defined.

Lemma poll_before_commit_drops_batch_witness :
  fst (fio_vsyncio_getevents ex_batch3 1 8) = 3
  /\ fio_vsyncio_commit (snd (fio_vsyncio_getevents ex_batch3 1 8))
       (ok_res 0) (ok_res 350)
     = Some (0, snd (fio_vsyncio_getevents ex_batch3 1 8)).
Proof.
  destruct (poll_before_commit_drops_batch ex_batch3 1 8 (ok_res 0)
              (ok_res 350)) as (Hn & _ & _ & Hc).
  - lia.
  - split; [exact Hn | exact Hc].
Defined.

Lemma event_fetches_committed_requests_witness :
  exists m' u',
    fio_vsyncio_commit ex_batch3 (ok_res 0) (ok_res 250) = Some (0, m')
    /\ fio_vsyncio_event (snd (fio_vsyncio_getevents m' 1 8)) 1 = Some 2%N
    /\ heap (snd (fio_vsyncio_getevents m' 1 8)) !! 2%N = Some u'
    /\ same_request (ex_req DDIR_READ 100 200) u'.
Proof.
  destruct ex_commit_short as (m' & Hc).
  destruct (event_fetches_committed_requests ex_batch3
              [ex_req DDIR_READ 0 100; ex_req DDIR_READ 100 200;
               ex_req DDIR_READ 300 50]
              (ok_res 0) (ok_res 250) 0 m' 1 8 1%nat
              (ex_req DDIR_READ 100 200) ex_batch3_batch Hc eq_refl)
    as (p & u' & Hp & He & Hh & Hs).
  assert (Hp2 : p = 2%N) by (vm_compute in Hp; congruence).
  subst p. exists m', u'.
  split; [exact Hc | split; [exact He | split; [exact Hh | exact Hs]]].
Defined.

Lemma queue_is_bookkeeping_witness :
  exists m',
    fio_vsyncio_queue ex_check ex_batch3 5%N (ok_res 0)
    = Some (FIO_Q_QUEUED, m')
    /\ heap m' = ex_heap /\ trace m' = [].
Proof.
  assert (Hq : exists m',
    fio_vsyncio_queue ex_check ex_batch3 5%N (ok_res 0)
    = Some (FIO_Q_QUEUED, m')) by (eexists; vm_compute; reflexivity).
  destruct Hq as (m' & Hq). exists m'. split; [exact Hq |].
  destruct (queue_is_bookkeeping ex_check ex_batch3 5%N
              (ex_req DDIR_READ 350 10) (ok_res 0) FIO_Q_QUEUED m')
    as (Hh & Ht & _).
  - reflexivity.
  - discriminate.
  - exact Hq.
  - split; [exact Hh | exact Ht].
Defined.

Lemma sync_barrier_immediate_witness :
  exists m',
    fio_vsyncio_queue ex_check ex_idle 6%N (fail_res 5)
    = Some (FIO_Q_COMPLETED, m')
    /\ sd m' = sd ex_idle
    /\ trace m' = [SysFsync ex_file]
    /\ heap m' !! 6%N = Some (set_error (ex_req DDIR_SYNC 0 0) 5)
    /\ verrors m' = [(5, "xfer"%string)].
Proof.
  destruct (sync_barrier_immediate ex_check ex_idle 6%N
              (ex_req DDIR_SYNC 0 0) (fail_res 5))
    as (m' & Hq & Hsd & Ht & _ & _ & Hfail).
  - reflexivity.
  - reflexivity.
  - reflexivity.
  - reflexivity.
  - discriminate.
  - destruct Hfail as [Hh Hv].
    + reflexivity.
    + simpl. lia.
    + simpl. lia.
    + exists m'.
      split; [exact Hq | split; [exact Hsd | split; [exact Ht |
        split; [exact Hh | exact Hv]]]].
Defined.

Lemma empty_batch_accepts_request_witness :
  exists m',
    fio_vsyncio_queue ex_check (fio_vsyncio_init 4 ex_heap) 1%N (ok_res 0)
    = Some (FIO_Q_QUEUED, m')
    /\ batch_ptrs (sd m') = [1%N]
    /\ queued_bytes (sd m') = 100.
Proof.
  destruct (empty_batch_accepts_request ex_check 4
              (fio_vsyncio_init 4 ex_heap) 1%N (ex_req DDIR_READ 0 100)
              (ok_res 0))
    as (m' & Hq & _ & Hps & _ & _ & _ & _ & _ & Hqb).
  - apply depth_inv_init. lia.
  - lia.
  - reflexivity.
  - reflexivity.
  - reflexivity.
  - discriminate.
  - exists m'. split; [exact Hq | split; [exact Hps | exact Hqb]].
Defined.

Lemma retry_after_busy_witness :
  exists m1 m3,
    fio_vsyncio_commit ex_batch3 (ok_res 0) (ok_res 250) = Some (0, m1)
    /\ fio_vsyncio_queue ex_check (snd (fio_vsyncio_getevents m1 1 8))
         4%N (ok_res 0) = Some (FIO_Q_QUEUED, m3)
    /\ batch_ptrs (sd m3) = [4%N].
Proof.
  destruct ex_commit_short as (m1 & Hc).
  destruct (retry_after_busy ex_check 4 ex_batch3 4%N
              (ex_req DDIR_READ 1000 10) (ok_res 0) (ok_res 0) (ok_res 250)
              0 m1 1 8)
    as (m3 & Hq & _ & Hps).
  - intros m0 u0. reflexivity.
  - exact ex_batch3_depth_inv.
  - lia.
  - reflexivity.
  - discriminate.
  - exact Hc.
  - lia.
  - exists m1, m3. split; [exact Hc | split; [exact Hq | exact Hps]].
Defined.

Lemma contiguous_requests_all_queue_witness :
  exists m',
    queue_each ex_check (fio_vsyncio_init 4 ex_heap) [1%N; 2%N; 3%N]
      (ok_res 0)
    = Some ([FIO_Q_QUEUED; FIO_Q_QUEUED; FIO_Q_QUEUED], m')
    /\ batch m'
         [ex_req DDIR_READ 0 100; ex_req DDIR_READ 100 200;
          ex_req DDIR_READ 300 50]
    /\ queued_bytes (sd m') = 350.
Proof.
  destruct (contiguous_requests_all_queue ex_check 4
              (fio_vsyncio_init 4 ex_heap) [1%N; 2%N; 3%N]
              [ex_req DDIR_READ 0 100; ex_req DDIR_READ 100 200;
               ex_req DDIR_READ 300 50]
              ex_file DDIR_READ 0 (ok_res 0))
    as (m' & Hq & Hb & _ & _ & _ & _ & Hqb).
  - intros m0 u0. reflexivity.
  - lia.
  - apply depth_inv_init. lia.
  - reflexivity.
  - repeat constructor.
  - discriminate.
  - simpl. repeat split.
  - repeat constructor; simpl; lia.
  - lia.
  - simpl. unfold ULONG_MOD. lia.
  - simpl. lia.
  - exists m'. split; [exact Hq | split; [exact Hb |]].
    apply (Hqb (ex_req DDIR_READ 0 100)); reflexivity.
Defined.

Lemma ex_run_short :
  exists m',
    run ex_check (fio_vsyncio_init 4 ex_heap)
      (ex_queue3 ++ [OpCommit (ok_res 0) (ok_res 250)]) = Some m'.
Proof. eexists. vm_compute. reflexivity. Qed.

Lemma run_preserves_requests_witness :
  exists m' u',
    run ex_check (fio_vsyncio_init 4 ex_heap)
      (ex_queue3 ++ [OpCommit (ok_res 0) (ok_res 250)]) = Some m'
    /\ heap m' !! 2%N = Some u'
    /\ same_request (ex_req DDIR_READ 100 200) u'
    /\ heap m' !! 9%N = None.
Proof.
  destruct ex_run_short as (m' & Hrun).
  destruct (run_preserves_requests ex_check _ _ m' Hrun) as (Hsome & Hnone).
  destruct (Hsome 2%N (ex_req DDIR_READ 100 200) eq_refl) as (u' & Hu & Hs).
  exists m', u'.
  split; [exact Hrun | split; [exact Hu | split; [exact Hs |]]].
  apply Hnone. reflexivity.
Defined.

Lemma descriptors_mirror_requests_witness :
  batch_iovecs (sd ex_batch3)
  = [Iovec 4096%N 100; Iovec 4096%N 200; Iovec 4096%N 50].
Proof.
  apply (proj1 (descriptors_mirror_requests ex_check 4 ex_heap ex_queue3
                  ex_batch3
                  [ex_req DDIR_READ 0 100; ex_req DDIR_READ 100 200;
                   ex_req DDIR_READ 300 50]
                  ltac:(lia) ex_run_batch3 ex_batch3_batch)).
Defined.

Lemma fio_syncio_prep_seeks_when_needed_witness :
  exists s',
    fio_syncio_prep ex_sthread 1%N (fail_res 29) = Some (1, s')
    /\ st_calls s' = [IoLseek 3 0]
    /\ verrors (st_td s') = [(29, "lseek"%string)].
Proof.
  destruct (fio_syncio_prep_seeks_when_needed ex_sthread 1%N
              (ex_req DDIR_READ 0 100)
              {| fd := 3; last_completed_pos := 100 |} (fail_res 29))
    as (r & s' & Hp & _ & _ & _ & Hseek).
  - reflexivity.
  - reflexivity.
  - destruct Hseek as (Hc & Hfail & _).
    + discriminate.
    + simpl. lia.
    + destruct (Hfail eq_refl) as [Hr Hv]. subst r.
      exists s'. split; [exact Hp | split; [exact Hc | exact Hv]].
Defined.

Lemma psync_transfer_outcome_witness :
  exists s',
    fio_psyncio_queue ex_check ex_sthread 1%N (ok_res 40)
    = Some (FIO_Q_COMPLETED, s')
    /\ st_calls s' = [IoPread 3 4096%N 100 0]
    /\ heap (st_td s') !! 1%N
       = Some (resolved (ex_req DDIR_READ 0 100) 60).
Proof.
  destruct (psync_transfer_outcome ex_check ex_sthread 1%N
              (ex_req DDIR_READ 0 100)
              {| fd := 3; last_completed_pos := 100 |} (ok_res 40))
    as (s' & Hq & Hc & _ & _ & _ & Hshort & _).
  - reflexivity.
  - reflexivity.
  - reflexivity.
  - discriminate.
  - simpl. lia.
  - simpl. lia.
  - destruct Hshort as [Hh _]; [simpl; lia |].
    exists s'. split; [exact Hq | split; [exact Hc | exact Hh]].
Defined.

Lemma vsync_sync_barrier_matches_psync_witness :
  match fio_vsyncio_queue ex_check ex_idle 6%N (fail_res 5),
        fio_psyncio_queue ex_check ex_sthread 6%N (fail_res 5) with
  | Some (q1, m1), Some (q2, s2) =>
      q1 = q2 /\ heap m1 = heap (st_td s2) /\ sd m1 = sd (st_td s2)
      /\ errno m1 = errno (st_td s2)
      /\ verrors m1 = verrors (st_td s2)
      /\ trace m1 = [SysFsync ex_file]
      /\ st_calls s2 = [IoFsync 3]
  | None, None => True
  | _, _ => False
  end.
Proof.
  apply (vsync_sync_barrier_matches_psync ex_check ex_sthread 6%N
           (ex_req DDIR_SYNC 0 0)
           {| fd := 3; last_completed_pos := 100 |} (fail_res 5)).
  - reflexivity.
  - reflexivity.
  - reflexivity.
  - discriminate.
  - reflexivity.
Defined.

(** ** Submission and polling on the example *)

Lemma mergeability_decides_queue_witness :
  (fio_vsyncio_append (sd ex_batch3) (ex_req DDIR_READ 350 10) = true
   <-> 350 = last_offset (sd ex_batch3)
       /\ ex_file = last_file (sd ex_batch3)
       /\ DDIR_READ = last_ddir (sd ex_batch3))
  /\ fio_vsyncio_queue ex_check ex_full3 5%N (ok_res 0)
     = Some (FIO_Q_BUSY, ex_full3)
  /\ (exists m',
        fio_vsyncio_queue ex_check ex_batch3 5%N (ok_res 0)
        = Some (FIO_Q_QUEUED, m')
        /\ batch_ptrs (sd m') = [1%N; 2%N; 3%N; 5%N]
        /\ queued (sd m') = 4 /\ queued_bytes (sd m') = 360)
  /\ fio_vsyncio_queue ex_check ex_batch3 4%N (ok_res 0)
     = Some (FIO_Q_BUSY, ex_batch3)
  /\ (exists m',
        fio_vsyncio_queue ex_check (fio_vsyncio_init 4 ex_heap) 4%N
          (ok_res 0) = Some (FIO_Q_QUEUED, m')
        /\ batch_ptrs (sd m') = [4%N]
        /\ queued (sd m') = 1 /\ queued_bytes (sd m') = 10)
  /\ fio_vsyncio_append (sd ex_idle) (ex_req DDIR_SYNC 0 0) = false
  /\ fio_vsyncio_append (sd (fio_vsyncio_init 4 ex_heap))
       (ex_req DDIR_READ 0 100) = false
  /\ (exists m1 m3,
        fio_vsyncio_commit ex_batch3 (ok_res 0) (ok_res 350) = Some (0, m1)
        /\ queued (sd (snd (fio_vsyncio_getevents m1 1 8))) = 0
        /\ fio_vsyncio_append (sd (snd (fio_vsyncio_getevents m1 1 8)))
             (ex_req DDIR_READ 350 10) = true
        /\ fio_vsyncio_queue ex_check (snd (fio_vsyncio_getevents m1 1 8))
             5%N (ok_res 0) = Some (FIO_Q_QUEUED, m3)
        /\ batch_ptrs (sd m3) = [5%N]
        /\ queued (sd m3) = 1 /\ queued_bytes (sd m3) = 360).
Proof.
  pose proof (mergeability_decides_queue ex_check)
    as (T1 & T2 & T3 & T4 & T5 & T6).
  split; [| split; [| split; [| split; [| split; [| split; [| split]]]]]].
  - apply (T1 (sd ex_batch3) (ex_req DDIR_READ 350 10)). discriminate.
  - destruct (T2 ex_full3 5%N (ex_req DDIR_READ 350 10) (ok_res 0))
      as [Hbusy _].
    + reflexivity.
    + reflexivity.
    + reflexivity.
    + apply Hbusy. reflexivity.
  - destruct (T2 ex_batch3 5%N (ex_req DDIR_READ 350 10) (ok_res 0))
      as [_ Hmerge].
    + reflexivity.
    + reflexivity.
    + reflexivity.
    + destruct (Hmerge 4) as (m' & Hq & Hps & Hn & Hqb & _).
      * exact ex_batch3_depth_inv.
      * lia.
      * simpl. lia.
      * exists m'.
        split; [exact Hq | split; [exact Hps | split;
          [exact Hn | exact Hqb]]].
  - destruct (T3 ex_batch3 4%N (ex_req DDIR_READ 1000 10) (ok_res 0))
      as [Hbusy _].
    + reflexivity.
    + reflexivity.
    + reflexivity.
    + apply Hbusy. simpl. lia.
  - destruct (T3 (fio_vsyncio_init 4 ex_heap) 4%N
                (ex_req DDIR_READ 1000 10) (ok_res 0)) as [_ Hfresh].
    + reflexivity.
    + reflexivity.
    + reflexivity.
    + destruct (Hfresh 4) as (m' & Hq & Hps & Hn & Hqb & _).
      * apply depth_inv_init. lia.
      * lia.
      * reflexivity.
      * discriminate.
      * exists m'.
        split; [exact Hq | split; [exact Hps | split;
          [exact Hn | exact Hqb]]].
  - apply (T4 ex_idle 6%N (ex_req DDIR_SYNC 0 0) (ok_res 0));
      reflexivity.
  - apply (T5 4 ex_heap (ex_req DDIR_READ 0 100)). discriminate.
  - assert (Hc : exists m1,
      fio_vsyncio_commit ex_batch3 (ok_res 0) (ok_res 350) = Some (0, m1))
      by (eexists; vm_compute; reflexivity).
    destruct Hc as (m1 & Hc).
    assert (Hh : heap (snd (fio_vsyncio_getevents m1 1 8)) !! 5%N
                 = Some (ex_req DDIR_READ 350 10)).
    { pose proof Hc as Hc'. vm_compute in Hc'. inversion Hc'; subst.
      vm_compute. reflexivity. }
    destruct (T6 4 ex_batch3 (ok_res 0) (ok_res 350) 0 m1 1 8 5%N
                (ex_req DDIR_READ 350 10) (ok_res 0))
      as (Hq0 & Ha & m3 & Hq & Hps & Hn & Hqb).
    + exact ex_batch3_depth_inv.
    + lia.
    + exact Hc.
    + lia.
    + exact Hh.
    + reflexivity.
    + discriminate.
    + reflexivity.
    + reflexivity.
    + reflexivity.
    + exists m1, m3.
      split; [exact Hc | split; [exact Hq0 | split; [exact Ha | split;
        [exact Hq | split; [exact Hps | split; [exact Hn | exact Hqb]]]]]].
Defined.

(** C8, counterexample.  The batch of the three adjacent reads is
    committed and the [lseek] fails with code 29.  The commit issues no
    transfer and resolves no request: the store of requests is what it
    was, residual and error fields included.  The poll that follows
    returns 3. *)
Lemma poll_counts_unresolved_counterexample :
  exists m1,
    fio_vsyncio_commit ex_batch3 (fail_res 29) (ok_res 350)
    = Some (-29, m1)
    /\ heap m1 = heap ex_batch3
    /\ trace m1 = [SysLseek ex_file 0]
    /\ fst (fio_vsyncio_getevents m1 1 8) = 3.
Proof.
  eexists. split; [vm_compute; reflexivity |].
  split; [reflexivity |]. split; reflexivity.
Qed.

Lemma poll_returns_queued_count_witness :
  fio_vsyncio_getevents ex_batch3 1 8
  = (3, with_sd ex_batch3 (set_queued (sd ex_batch3) 0))
  /\ fst (fio_vsyncio_getevents
            (snd (fio_vsyncio_getevents ex_batch3 1 8)) 1 8) = 0
  /\ (exists m1,
        fio_vsyncio_commit ex_batch3 (ok_res 0) (ok_res 250) = Some (0, m1)
        /\ fst (fio_vsyncio_getevents m1 1 8) = 3
        /\ trace m1
           = [SysLseek ex_file 0;
              SysReadv ex_file
                [Iovec 4096%N 100; Iovec 4096%N 200; Iovec 4096%N 50]])
  /\ (exists m1,
        fio_vsyncio_commit ex_batch3 (fail_res 29) (ok_res 350)
        = Some (-29, m1)
        /\ fst (fio_vsyncio_getevents m1 1 8) = 3
        /\ trace m1 = [SysLseek ex_file 0]
        /\ heap m1 = ex_heap).
Proof.
  pose proof poll_returns_queued_count as (P1 & P2 & _ & P4).
  split; [| split; [| split]].
  - apply (P1 ex_batch3 1 8); simpl; lia.
  - apply (P2 ex_batch3 1 8 1 8); lia.
  - assert (Hc : exists m1,
      fio_vsyncio_commit ex_batch3 (ok_res 0) (ok_res 250) = Some (0, m1))
      by (eexists; vm_compute; reflexivity).
    destruct Hc as (m1 & Hc). exists m1. split; [exact Hc |].
    destruct (P4 4 ex_batch3 (ex_req DDIR_READ 0 100)
                [ex_req DDIR_READ 100 200; ex_req DDIR_READ 300 50]
                (ok_res 0) (ok_res 250) 0 m1 1 8)
      as (Hn & Hok & _).
    + exact ex_batch3_depth_inv.
    + lia.
    + exact ex_batch3_batch.
    + exact Hc.
    + lia.
    + split; [exact Hn |]. destruct Hok as [Ht _]; [simpl; lia |].
      exact Ht.
  - assert (Hc : exists m1,
      fio_vsyncio_commit ex_batch3 (fail_res 29) (ok_res 350)
      = Some (-29, m1))
      by (eexists; vm_compute; reflexivity).
    destruct Hc as (m1 & Hc). exists m1. split; [exact Hc |].
    destruct (P4 4 ex_batch3 (ex_req DDIR_READ 0 100)
                [ex_req DDIR_READ 100 200; ex_req DDIR_READ 300 50]
                (fail_res 29) (ok_res 350) (-29) m1 1 8)
      as (Hn & _ & Hfail).
    + exact ex_batch3_depth_inv.
    + lia.
    + exact ex_batch3_batch.
    + exact Hc.
    + lia.
    + split; [exact Hn |]. destruct Hfail as [Ht Hh]; [reflexivity |].
      split; [exact Ht | exact Hh].
Defined.
